(** * CNNumpy: the layers of [layers.py], embedded and verified

    The Python classes [Conv], [AvgPool], [Fc], [AdamGD] and [TanH] are
    translated statement by statement.  A numpy array is a shape together
    with an element function on multi-indices; every numpy operation that can
    raise (an index out of range, operands that do not broadcast, a negative
    dimension, a division of Python integers by zero, a missing dictionary key)
    returns [None] here.

    Scalars are kept abstract: the development is parametric in the
    arithmetic the array library provides, and no law of that arithmetic is
    used unless a theorem lists it among its hypotheses.  Sums are left folds
    in row-major order, and the theorems state them in that order; rounding,
    and the order in which numpy itself adds, are outside the model.  The
    sizes [f], [s], [p] and the dimensions of arrays are natural numbers. *)

From stdpp Require Import gmap strings list.
From Stdlib Require Import ZArith QArith Qcanon Reals Lia Lra.

Local Open Scope nat_scope.

(** ** Scalars *)

Class Scalar (F : Type) := {
  szero : F;
  sone : F;
  sadd : F → F → F;
  ssub : F → F → F;
  smul : F → F → F;
  sdiv : F → F → F;
  sof_Z : Z → F
}.

Definition sof_nat `{Scalar F} (n : nat) : F := sof_Z (Z.of_nat n).

(** Python's [sum] order: a left fold starting at zero. *)
Definition ssum `{Scalar F} (l : list F) : F := foldl sadd szero l.

(** Exact rationals: the instance used to run the layers. *)
#[export] Instance Qc_Scalar : Scalar Qc := {|
  szero := Q2Qc 0;
  sone := Q2Qc 1;
  sadd := Qcplus;
  ssub := Qcminus;
  smul := Qcmult;
  sdiv := Qcdiv;
  sof_Z := λ z, Q2Qc (inject_Z z)
|}.

(** What the development needs of [np.tanh] and [np.sqrt]. *)
Class Elementary (F : Type) := {
  stanh : F → F;
  ssqrt : F → F
}.

(** The real numbers: the arithmetic the floating-point code approximates. *)
#[export] Instance R_Scalar : Scalar R := {|
  szero := 0%R;
  sone := 1%R;
  sadd := Rplus;
  ssub := Rminus;
  smul := Rmult;
  sdiv := Rdiv;
  sof_Z := IZR
|}.

#[export] Instance R_Elementary : Elementary R := {|
  stanh := tanh;
  ssqrt := sqrt
|}.

(** ** Arrays *)

Record ndarray (F : Type) := NdArray {
  shape : list nat;
  item : list nat → F
}.
Arguments NdArray {F} _ _.
Arguments shape {F} _.
Arguments item {F} _ _.

(** Two arrays are equal as numpy sees it ([np.array_equal]) when they have
    one shape and agree at every index inside it. *)
Fixpoint in_bounds (sh idx : list nat) : bool :=
  match sh, idx with
  | [], [] => true
  | d :: sh', k :: idx' => (k <? d) && in_bounds sh' idx'
  | _, _ => false
  end.


(** All multi-indices of a shape, in row-major (C) order. *)
Fixpoint indices (sh : list nat) : list (list nat) :=
  match sh with
  | [] => [[]]
  | d :: sh' => k ← seq 0 d; (λ idx, k :: idx) <$> indices sh'
  end.

Definition size (sh : list nat) : nat := foldr Nat.mul 1 sh.

(** Index expressions: [A[k]], [A[a:b]] and [A[:]]; axes left without an
    index are taken whole, which is also what a trailing [...] means. *)
Inductive index := At (k : nat) | Slice (a b : nat) | All.

(** Shape of the view [A[specs]]; an integer index out of range raises. *)
Fixpoint view_shape (specs : list index) (sh : list nat) : option (list nat) :=
  match specs, sh with
  | [], _ => Some sh
  | _ :: _, [] => None
  | At k :: sp, d :: sh' => if k <? d then view_shape sp sh' else None
  | Slice a b :: sp, d :: sh' =>
      vs ← view_shape sp sh'; Some ((Nat.min b d - Nat.min a d) :: vs)
  | All :: sp, d :: sh' => vs ← view_shape sp sh'; Some (d :: vs)
  end.

(** From an index of the view to the index of the same cell in the base. *)
Fixpoint to_base (specs : list index) (sh v : list nat) : list nat :=
  match specs, sh with
  | [], _ => v
  | _ :: _, [] => v
  | At k :: sp, _ :: sh' => k :: to_base sp sh' v
  | Slice a b :: sp, d :: sh' =>
      match v with
      | x :: v' => (Nat.min a d + x) :: to_base sp sh' v'
      | [] => []
      end
  | All :: sp, _ :: sh' =>
      match v with
      | x :: v' => x :: to_base sp sh' v'
      | [] => []
      end
  end.

(** From an index of the base to the index inside the view, when the cell
    belongs to the view. *)
Fixpoint from_base (specs : list index) (sh idx : list nat) : option (list nat) :=
  match specs, sh, idx with
  | [], _, _ => Some idx
  | At k :: sp, _ :: sh', x :: idx' =>
      if x =? k then from_base sp sh' idx' else None
  | Slice a b :: sp, d :: sh', x :: idx' =>
      if (Nat.min a d <=? x) && (x <? Nat.min b d)
      then v ← from_base sp sh' idx'; Some ((x - Nat.min a d) :: v)
      else None
  | All :: sp, _ :: sh', x :: idx' => v ← from_base sp sh' idx'; Some (x :: v)
  | _, _, _ => None
  end.

(** Broadcasting: shapes are aligned at their last axis; two dimensions go
    together when they are equal or one of them is 1. *)
Fixpoint bshape_rev (r1 r2 : list nat) : option (list nat) :=
  match r1, r2 with
  | [], r => Some r
  | r, [] => Some r
  | a :: r1', b :: r2' =>
      r ← bshape_rev r1' r2';
      if a =? b then Some (a :: r)
      else if a =? 1 then Some (b :: r)
      else if b =? 1 then Some (a :: r)
      else None
  end.

Definition bshape (s1 s2 : list nat) : option (list nat) :=
  r ← bshape_rev (reverse s1) (reverse s2); Some (reverse r).

(** The index an operand of shape [sh] is read at, for the index [idx] of
    the broadcast result. *)
Definition bidx (sh idx : list nat) : list nat :=
  zip_with (λ d x, if d =? 1 then 0 else x) sh (drop (length idx - length sh) idx).

Definition broadcastable (src dst : list nat) : bool :=
  bool_decide (bshape src dst = Some dst).

Section arrays.
Context {F : Type} `{Scalar F}.

Definition np_zeros (dims : list Z) : option (ndarray F) :=
  if forallb (λ d, 0 <=? d)%Z dims
  then Some (NdArray (Z.to_nat <$> dims) (λ _, szero))
  else None.

Definition zeros (sh : list nat) : ndarray F := NdArray sh (λ _, szero).

Definition np_full (sh : list nat) (v : F) : ndarray F := NdArray sh (λ _, v).

(** [A[i, j, ...]] with one integer per axis. *)
Definition get (A : ndarray F) (idx : list nat) : option F :=
  if in_bounds (shape A) idx then Some (item A idx) else None.

(** [A[specs]] *)
Definition getitem (A : ndarray F) (specs : list index) : option (ndarray F) :=
  vs ← view_shape specs (shape A);
  Some (NdArray vs (λ v, item A (to_base specs (shape A) v))).

(** [A[specs] = v] for a scalar [v] *)
Definition setitem (A : ndarray F) (specs : list index) (v : F) : option (ndarray F) :=
  _ ← view_shape specs (shape A);
  Some (NdArray (shape A) (λ idx,
    match from_base specs (shape A) idx with
    | Some _ => v
    | None => item A idx
    end)).

(** [A[specs] += R]: [R] has to broadcast to the shape of the view. *)
Definition iadd (A : ndarray F) (specs : list index) (R : ndarray F) : option (ndarray F) :=
  vs ← view_shape specs (shape A);
  if broadcastable (shape R) vs
  then Some (NdArray (shape A) (λ idx,
    match from_base specs (shape A) idx with
    | Some v => sadd (item A idx) (item R (bidx (shape R) v))
    | None => item A idx
    end))
  else None.

(** Element-wise binary operation with broadcasting. *)
Definition np_binop (op : F → F → F) (A B : ndarray F) : option (ndarray F) :=
  sh ← bshape (shape A) (shape B);
  Some (NdArray sh (λ idx, op (item A (bidx (shape A) idx)) (item B (bidx (shape B) idx)))).

Definition np_map (g : F → F) (A : ndarray F) : ndarray F :=
  NdArray (shape A) (λ idx, g (item A idx)).

(** [k * A] for a Python or numpy scalar [k] *)
Definition scale (k : F) (A : ndarray F) : ndarray F := np_map (smul k) A.

Definition np_sum (A : ndarray F) : F := ssum (item A <$> indices (shape A)).

Definition np_mean (A : ndarray F) : F :=
  sdiv (np_sum A) (sof_nat (size (shape A))).

(** [np.sum(A, axis=0)] *)
Definition np_sum_axis0 (A : ndarray F) : option (ndarray F) :=
  match shape A with
  | [] => None
  | d :: sh => Some (NdArray sh (λ idx, ssum ((λ i, item A (i :: idx)) <$> seq 0 d)))
  end.

(** [A.T]: the axes in reverse order. *)
Definition np_T (A : ndarray F) : ndarray F :=
  NdArray (reverse (shape A)) (λ idx, item A (reverse idx)).

(** [np.flip(A, axis)] *)
Definition np_flip (axis : nat) (A : ndarray F) : option (ndarray F) :=
  d ← shape A !! axis;
  Some (NdArray (shape A) (λ idx, item A (alter (λ x, d - 1 - x) axis idx))).

(** [np.transpose] with the first two axes exchanged. *)
Definition swap01 {A} (l : list A) : list A :=
  match l with
  | a :: b :: r => b :: a :: r
  | _ => l
  end.

Definition np_transpose01 (A : ndarray F) : option (ndarray F) :=
  if 2 <=? length (shape A)
  then Some (NdArray (swap01 (shape A)) (λ idx, item A (swap01 idx)))
  else None.

(** [np.rot90(A)], with numpy's defaults [k=1, axes=(0, 1)]: numpy returns
    [transpose(flip(A, 1), axes_list)] where [axes_list] exchanges the
    axes 0 and 1. *)
Definition np_rot90 (A : ndarray F) : option (ndarray F) :=
  flipped ← np_flip 1 A; np_transpose01 flipped.

(** [np.dot(A, B)]: a product of scalars when one operand has no axes;
    otherwise the last axis of [A] is summed against the only axis of a
    vector [B], or against the last but one axis of [B]. *)
Definition np_dot (A B : ndarray F) : option (ndarray F) :=
  let sa := shape A in
  let sb := shape B in
  if (length sa =? 0) || (length sb =? 0) then np_binop smul A B
  else
    let k := last sa in
    let ra := length sa - 1 in
    if length sb =? 1 then
      if bool_decide (k = last sb)
      then Some (NdArray (take ra sa) (λ idx,
             ssum ((λ l, smul (item A (idx ++ [l])) (item B [l]))
                   <$> seq 0 (default 0 k))))
      else None
    else
      let rb := length sb - 2 in
      if bool_decide (k = sb !! rb)
      then Some (NdArray (take ra sa ++ take rb sb ++ drop (S rb) sb) (λ idx,
             ssum ((λ l, smul (item A (take ra idx ++ [l]))
                              (item B (take rb (drop ra idx) ++ l :: drop (ra + rb) idx)))
                   <$> seq 0 (default 0 k))))
      else None.
End arrays.

(** ** Loops *)

Fixpoint for_each {A S : Type} (l : list A) (body : A → S → option S) (st : S) : option S :=
  match l with
  | [] => Some st
  | a :: l' => st' ← body a st; for_each l' body st'
  end.

(** [for k in range(n): st = body k st] *)
Definition for_range {S : Type} (n : nat) (body : nat → S → option S) (st : S) : option S :=
  for_each (seq 0 n) body st.

(** Output extent of a sliding window, [int((n + 2*p - f) / s) + 1]:
    Python's [/] on integers raises for a zero divisor and [int] truncates
    towards zero, which is [Z.quot] (the quotient is taken exactly, as it
    is in floating point for dimensions of any realistic size). *)
Definition out_size (n_prev p f s : nat) : option Z :=
  if s =? 0 then None
  else Some (Z.quot (Z.of_nat n_prev + 2 * Z.of_nat p - Z.of_nat f) (Z.of_nat s) + 1)%Z.

Definition unpack4 (sh : list nat) : option (nat * nat * nat * nat) :=
  match sh with
  | [a; b; c; d] => Some (a, b, c, d)
  | _ => None
  end.

(** A parameter: the dictionary [{'val': ..., 'grad': ...}]. *)
Record param (F : Type) := Param { val : ndarray F; grad : ndarray F }.
Arguments Param {F} _ _.
Arguments val {F} _.
Arguments grad {F} _.

(** ** Conv *)

Module Conv.
Section defs.
Context {F : Type} `{Scalar F}.

Record t := Build {
  n_F : nat;
  f : nat;
  n_C : nat;
  s : nat;
  p : nat;
  W : param F;
  b : param F;
  cache : option (ndarray F)
}.

(** [__init__]; [W0] and [b0] are the arrays [np.random.randn] draws. *)
Definition init (nb_filters filter_size nb_channels stride padding : nat)
    (W0 b0 : ndarray F) : t :=
  {| n_F := nb_filters; f := filter_size; n_C := nb_channels;
     s := stride; p := padding;
     W := Param W0 (zeros [nb_filters; nb_channels; filter_size; filter_size]);
     b := Param b0 (zeros [nb_filters; 1]);
     cache := None |}.

Definition set_cache (L : t) (X : ndarray F) : t :=
  {| n_F := n_F L; f := f L; n_C := n_C L; s := s L; p := p L;
     W := W L; b := b L; cache := Some X |}.

(** One output entry: [np.sum(X[i, :, h_start:h_end, w_start:w_end] *
    W['val'][c, ...]) + b['val'][c, 0]]. *)
Definition entry (L : t) (X : ndarray F) (i c h w : nat) : option F :=
  let h_start := h * s L in
  let h_end := h_start + f L in
  let w_start := w * s L in
  let w_end := w_start + f L in
  win ← getitem X [At i; All; Slice h_start h_end; Slice w_start w_end];
  ker ← getitem (val (W L)) [At c];
  prod ← np_binop smul win ker;
  bias ← get (val (b L)) [c; 0];
  Some (sadd (np_sum prod) bias).

Definition forward (L : t) (X : ndarray F) : option (t * ndarray F) :=
  let L := set_cache L X in
  '(m, n_C_prev, n_H_prev, n_W_prev) ← unpack4 (shape X);
  let n_C := n_F L in
  n_H ← out_size n_H_prev (p L) (f L) (s L);
  n_W ← out_size n_W_prev (p L) (f L) (s L);
  out ← np_zeros [Z.of_nat m; Z.of_nat n_C; n_H; n_W];
  out ← for_range m (λ i,
         for_range n_C (λ c,
          for_range (Z.to_nat n_H) (λ h,
           for_range (Z.to_nat n_W) (λ w out,
             v ← entry L X i c h w;
             setitem out [At i; At c; At h; At w] v)))) out;
  Some (L, out).

Definition set_grads (L : t) (Wgrad bgrad : ndarray F) : t :=
  {| n_F := n_F L; f := f L; n_C := n_C L; s := s L; p := p L;
     W := Param (val (W L)) Wgrad; b := Param (val (b L)) bgrad;
     cache := cache L |}.

(** [self.W['grad'][c, ...] += dout[i, c, h, w] *
    X[i, :, h_start:h_end, w_start:w_end]] *)
Definition step_dW (L : t) (X dout : ndarray F) (i c h w : nat)
    (Wgrad : ndarray F) : option (ndarray F) :=
  let h_start := h * s L in
  let h_end := h_start + f L in
  let w_start := w * s L in
  let w_end := w_start + f L in
  d ← get dout [i; c; h; w];
  win ← getitem X [At i; All; Slice h_start h_end; Slice w_start w_end];
  iadd Wgrad [At c] (scale d win).

(** [dX[i, :, h_start:h_end, w_start:w_end] += dout[i, c, h, w] *
    W_rot[c, ...]] *)
Definition step_dX (L : t) (W_rot dout : ndarray F) (i c h w : nat)
    (dX : ndarray F) : option (ndarray F) :=
  let h_start := h * s L in
  let h_end := h_start + f L in
  let w_start := w * s L in
  let w_end := w_start + f L in
  d ← get dout [i; c; h; w];
  ker ← getitem W_rot [At c];
  iadd dX [At i; All; Slice h_start h_end; Slice w_start w_end] (scale d ker).

(** [self.b['grad'][c, ...] = np.sum(dout[:, c, ...])] *)
Definition step_db (dout : ndarray F) (c : nat) (bgrad : ndarray F) : option (ndarray F) :=
  col ← getitem dout [All; At c];
  setitem bgrad [At c] (np_sum col).

Definition backward (L : t) (dout : ndarray F)
    : option (t * (ndarray F * ndarray F * ndarray F)) :=
  X ← cache L;
  '(m, n_C, n_H, n_W) ← unpack4 (shape X);
  '(m, n_C_dout, n_H_dout, n_W_dout) ← unpack4 (shape dout);
  r ← np_rot90 (val (W L));
  W_rot ← np_rot90 r;
  let dX := zeros (shape X) in
  '(Wgrad, dX) ← for_range m (λ i,
         for_range n_C_dout (λ c,
          for_range n_H_dout (λ h,
           for_range n_W_dout (λ w '(Wgrad, dX),
             Wgrad' ← step_dW L X dout i c h w Wgrad;
             dX' ← step_dX L W_rot dout i c h w dX;
             Some (Wgrad', dX'))))) (grad (W L), dX);
  bgrad ← for_range (n_F L) (step_db dout) (grad (b L));
  Some (set_grads L Wgrad bgrad, (dX, Wgrad, bgrad)).
End defs.
Arguments t F : clear implicits.
End Conv.

(** ** AvgPool *)

Module AvgPool.
Section defs.
Context {F : Type} `{Scalar F}.

Record t := Build {
  f : nat;
  s : nat;
  cache : option (ndarray F)
}.

Definition init (filter_size stride : nat) : t :=
  {| f := filter_size; s := stride; cache := None |}.

(** [A_pool[i, :, h, w] = np.mean(X[i, :, h_start:h_end, w_start:w_end])] *)
Definition step (L : t) (X : ndarray F) (i h w : nat) (A_pool : ndarray F)
    : option (ndarray F) :=
  let h_start := h * s L in
  let h_end := h_start + f L in
  let w_start := w * s L in
  let w_end := w_start + f L in
  win ← getitem X [At i; All; Slice h_start h_end; Slice w_start w_end];
  setitem A_pool [At i; All; At h; At w] (np_mean win).

Definition forward (L : t) (X : ndarray F) : option (t * ndarray F) :=
  '(m, n_C_prev, n_H_prev, n_W_prev) ← unpack4 (shape X);
  let n_C := n_C_prev in
  n_H ← out_size n_H_prev 0 (f L) (s L);
  n_W ← out_size n_W_prev 0 (f L) (s L);
  A_pool ← np_zeros [Z.of_nat m; Z.of_nat n_C; n_H; n_W];
  A_pool ← for_range m (λ i,
            for_range (Z.to_nat n_H) (λ h,
             for_range (Z.to_nat n_W) (λ w, step L X i h w))) A_pool;
  Some ({| f := f L; s := s L; cache := Some X |}, A_pool).

(** [average = dout[i, c, h, w] / (n_H * n_W)];
    [filter_average = np.full((self.f, self.f), average)];
    [dX[i, c, h_start:h_end, w_start:w_end] += filter_average] *)
Definition step_back (L : t) (dout : ndarray F) (n_H n_W i c h w : nat)
    (dX : ndarray F) : option (ndarray F) :=
  let h_start := h * s L in
  let h_end := h_start + f L in
  let w_start := w * s L in
  let w_end := w_start + f L in
  d ← get dout [i; c; h; w];
  let average := sdiv d (sof_nat (n_H * n_W)) in
  let filter_average := np_full [f L; f L] average in
  iadd dX [At i; At c; Slice h_start h_end; Slice w_start w_end] filter_average.

(** [dX = np.copy(X)], then the loop nest over the shape of [dout].  The
    model covers a layer whose cache holds an array: on a cache that is
    still [None] the code copies it to a 0-d object array, which the loop
    body cannot index and which no [ndarray] stands for. *)
Definition backward (L : t) (dout : ndarray F) : option (ndarray F) :=
  X ← cache L;
  '(m, n_C, n_H, n_W) ← unpack4 (shape dout);
  let dX := X in
  for_range m (λ i,
   for_range n_C (λ c,
    for_range n_H (λ h,
     for_range n_W (λ w, step_back L dout n_H n_W i c h w)))) dX.
End defs.
Arguments t F : clear implicits.
End AvgPool.

(** ** Fc *)

(** What a ['grad'] entry of [Fc] holds: the integer [0] that [__init__]
    stores, or an array. *)
Inductive pyobj (F : Type) := PyInt (z : Z) | PyArr (a : ndarray F).
Arguments PyInt {F} _.
Arguments PyArr {F} _.

(** [np.shape]: a Python number has the empty shape. *)
Definition np_shape {F} (o : pyobj F) : list nat :=
  match o with
  | PyInt _ => []
  | PyArr a => shape a
  end.

Module Fc.
Section defs.
Context {F : Type} `{Scalar F}.

Record fparam := FParam { val : ndarray F; grad : pyobj F }.

Record t := Build {
  row : nat;
  col : nat;
  W : fparam;
  b : fparam;
  cache : option (ndarray F)
}.

(** [__init__]; [W0] and [b0] are the arrays [np.random.randn] draws. *)
Definition init (row column : nat) (W0 b0 : ndarray F) : t :=
  {| row := row; col := column;
     W := FParam W0 (PyInt 0); b := FParam b0 (PyInt 0);
     cache := None |}.

Definition forward (L : t) (fc : ndarray F) : option (t * ndarray F) :=
  let L := {| row := row L; col := col L; W := W L; b := b L; cache := Some fc |} in
  prod ← np_dot (val (W L)) fc;
  A_fc ← np_binop sadd prod (val (b L));
  Some (L, A_fc).

Definition backward (L : t) (deltaL : ndarray F)
    : option (t * (ndarray F * ndarray F * ndarray F)) :=
  fc ← cache L;
  m ← shape fc !! 0;
  (* 1/m *)
  inv_m ← (if m =? 0 then None else Some (sdiv sone (sof_nat m)));
  prod ← np_dot deltaL (np_T fc);
  let Wgrad := scale inv_m prod in
  sums ← np_sum_axis0 deltaL;
  let bgrad := scale inv_m sums in
  new_deltaL ← np_dot (np_T (val (W L))) deltaL;
  Some ({| row := row L; col := col L;
           W := FParam (val (W L)) (PyArr Wgrad);
           b := FParam (val (b L)) (PyArr bgrad);
           cache := cache L |},
        (new_deltaL, Wgrad, bgrad)).
End defs.
Arguments t F : clear implicits.
Arguments fparam F : clear implicits.
End Fc.

(** ** TanH *)

Module TanH.
Section defs.
Context {F : Type} `{Scalar F} `{Elementary F}.

Record t := Build {
  alpha : F;
  cache : option (ndarray F)
}.

(** The default of the [alpha] argument, the literal [1.7159]. *)
Definition default_alpha : F := sdiv (sof_Z 17159) (sof_Z 10000).

(** [__init__(self, alpha = 1.7159)] *)
Definition init (alpha : option F) : t :=
  {| alpha := default default_alpha alpha; cache := None |}.

(** [self.alpha * np.tanh(X)] *)
Definition forward (L : t) (X : ndarray F) : t * ndarray F :=
  ({| alpha := alpha L; cache := Some X |}, scale (alpha L) (np_map stanh X)).

(** [new_deltaL * (1 - np.tanh(X)**2)] *)
Definition backward (L : t) (new_deltaL : ndarray F) : option (ndarray F) :=
  X ← cache L;
  let th := np_map stanh X in
  let sq := np_map (λ x, smul x x) th in
  np_binop smul new_deltaL (np_map (ssub sone) sq).
End defs.
Arguments t F : clear implicits.
End TanH.

(** ** AdamGD *)

(** The parameter dictionary is an object shared with the training driver:
    it lives in a store and the optimizer holds its address. *)
Abbreviation dict F := (gmap string (ndarray F)).
Abbreviation store F := (gmap nat (gmap string (ndarray F))).

Module AdamGD.
Section defs.
Context {F : Type} `{Scalar F} `{Elementary F}.

(** [attrs] holds the moment attributes [self.vdW1], ..., [self.sdb5]. *)
Record t := Build {
  lr : F;
  beta1 : F;
  beta2 : F;
  epsilon : F;
  params : nat;
  attrs : dict F
}.

Definition set_attr (self : t) (name : string) (a : ndarray F) : t :=
  {| lr := lr self; beta1 := beta1 self; beta2 := beta2 self;
     epsilon := epsilon self; params := params self;
     attrs := <[name := a]> (attrs self) |}.

(** [self.<name> = np.zeros(self.params[<key>].shape)] *)
Definition init_attr (h : store F) (name key : string) (self : t) : option t :=
  d ← h !! params self;
  a ← d !! key;
  Some (set_attr self name (zeros (shape a))).

Definition init (lr beta1 beta2 epsilon : F) (params : nat) (h : store F) : option t :=
  let self := {| lr := lr; beta1 := beta1; beta2 := beta2; epsilon := epsilon;
                 params := params; attrs := ∅ |} in
  self ← init_attr h "vdW1" "W1" self; self ← init_attr h "vdb1" "b1" self;
  self ← init_attr h "vdW2" "W2" self; self ← init_attr h "vdb2" "b2" self;
  self ← init_attr h "vdW3" "W3" self; self ← init_attr h "vdb3" "b3" self;
  self ← init_attr h "vdW4" "W4" self; self ← init_attr h "vdb4" "b4" self;
  self ← init_attr h "vdW5" "W5" self; self ← init_attr h "vdb5" "b5" self;
  self ← init_attr h "sdW1" "W1" self; self ← init_attr h "sdb1" "b1" self;
  self ← init_attr h "sdW2" "W2" self; self ← init_attr h "sdb2" "b2" self;
  self ← init_attr h "sdW3" "W3" self; self ← init_attr h "sdb3" "b3" self;
  self ← init_attr h "sdW4" "W4" self; self ← init_attr h "sdb4" "b4" self;
  self ← init_attr h "sdW5" "W5" self; self ← init_attr h "sdb5" "b5" self;
  Some self.

(** [self.vd = (self.beta1 * self.vd) + (1 - self.beta1) * grads[g]] *)
Definition momentum (grads : dict F) (vd g : string) (self : t) : option t :=
  v ← attrs self !! vd;
  gr ← grads !! g;
  new ← np_binop sadd (scale (beta1 self) v) (scale (ssub sone (beta1 self)) gr);
  Some (set_attr self vd new).

(** [self.sd = (self.beta2 * self.sd) + (1 - self.beta2) * grads[g]**2] *)
Definition rmsprop (grads : dict F) (sd g : string) (self : t) : option t :=
  sq ← attrs self !! sd;
  gr ← grads !! g;
  new ← np_binop sadd (scale (beta2 self) sq)
                      (scale (ssub sone (beta2 self)) (np_map (λ x, smul x x) gr));
  Some (set_attr self sd new).

(** [self.params[k] = self.params[k] - self.lr * self.vd /
    (np.sqrt(self.sd) + self.epsilon)] *)
Definition step (self : t) (k vd sd : string) (h : store F) : option (store F) :=
  d ← h !! params self;
  par ← d !! k;
  v ← attrs self !! vd;
  sq ← attrs self !! sd;
  quot ← np_binop sdiv (scale (lr self) v)
                       (np_map (λ x, sadd (ssqrt x) (epsilon self)) sq);
  new ← np_binop ssub par quot;
  Some (<[params self := <[k := new]> d]> h).

Definition update_params (self : t) (h : store F) (grads : dict F)
    : option (t * store F * nat) :=
  self ← momentum grads "vdW1" "dW1" self;
  self ← momentum grads "vdW2" "dW2" self;
  self ← momentum grads "vdW3" "dW3" self;
  self ← momentum grads "vdW4" "dW4" self;
  self ← momentum grads "vdW5" "dW5" self;
  self ← momentum grads "vdb1" "db1" self;
  self ← momentum grads "vdb2" "db2" self;
  self ← momentum grads "vdb3" "db3" self;
  self ← momentum grads "vdb4" "db4" self;
  self ← momentum grads "vdb5" "db5" self;
  self ← rmsprop grads "sdW1" "dW1" self;
  self ← rmsprop grads "sdW2" "dW2" self;
  self ← rmsprop grads "sdW3" "dW3" self;
  self ← rmsprop grads "sdW4" "dW4" self;
  self ← rmsprop grads "sdW5" "dW5" self;
  self ← rmsprop grads "sdb1" "db1" self;
  self ← rmsprop grads "sdb2" "db2" self;
  self ← rmsprop grads "sdb3" "db3" self;
  self ← rmsprop grads "sdb4" "db4" self;
  self ← rmsprop grads "sdb5" "db5" self;
  h ← step self "W1" "vdW1" "sdW1" h;
  h ← step self "W2" "vdW2" "sdW2" h;
  h ← step self "W3" "vdW3" "sdW3" h;
  h ← step self "W4" "vdW4" "sdW4" h;
  h ← step self "W5" "vdW5" "sdW5" h;
  h ← step self "b1" "vdb1" "sdb1" h;
  h ← step self "b2" "vdb2" "sdb2" h;
  h ← step self "b3" "vdb3" "sdb3" h;
  h ← step self "b4" "vdb4" "sdb4" h;
  h ← step self "b5" "vdb5" "sdb5" h;
  Some (self, h, params self).
End defs.
Arguments t F : clear implicits.
End AdamGD.

(** The invariant of the data model for [Conv]: the gradient of each
    parameter has the shape of its value. *)
Definition conv_shapes_agree {F} (L : Conv.t F) : Prop :=
  shape (grad (Conv.W L)) = shape (val (Conv.W L))
  ∧ shape (grad (Conv.b L)) = shape (val (Conv.b L)).

(** The ten parameters [AdamGD] tracks, in the order of its assignments. *)
Definition tracked : list string :=
  ["W1"; "W2"; "W3"; "W4"; "W5"; "b1"; "b2"; "b3"; "b4"; "b5"].

(** The optimizer's own settings are the same in two states. *)
Definition same_settings `{Scalar F} (a b : AdamGD.t F) : Prop :=
  AdamGD.lr a = AdamGD.lr b ∧ AdamGD.beta1 a = AdamGD.beta1 b
  ∧ AdamGD.beta2 a = AdamGD.beta2 b ∧ AdamGD.epsilon a = AdamGD.epsilon b
  ∧ AdamGD.params a = AdamGD.params b.


(** What the input cell [(i, c, y, x)] receives from the output-gradient
    entry [t = [i'; c'; h; w]] in [AvgPool.backward]: the entry divided by
    [n_H * n_W], when the window of [t] contains the cell. *)
Definition share `{Scalar F} (f s : nat) (dout : ndarray F) (n_H n_W i c y x : nat)
    (t : list nat) : option F :=
  match t with
  | [i'; c'; h; w] =>
      if (i' =? i) && (c' =? c) && (h * s <=? y) && (y <? h * s + f)
         && (w * s <=? x) && (x <? w * s + f)
      then Some (sdiv (item dout t) (sof_nat (n_H * n_W)))
      else None
  | _ => None
  end.

(** The products [dout[i, c, h, w] * X[i, ch, h*s + y, w*s + x]] that
    [Conv.backward] adds to the weight gradient at [[c; ch; y; x]], in the
    order of the loops over [i], [h] and [w]. *)
Definition dW_terms `{Scalar F} (s : nat) (X dout : ndarray F) (c ch y x : nat)
    (m n_H n_W : nat) : list F :=
  (λ t, match t with
        | [i; h; w] => smul (item dout [i; c; h; w]) (item X [i; ch; h * s + y; w * s + x])
        | _ => szero
        end) <$> indices [m; n_H; n_W].

(** The entries [dout[i, c, h, w]] of one channel, over the batch and the
    two spatial axes. *)
Definition db_terms `{Scalar F} (dout : ndarray F) (c m n_H n_W : nat) : list F :=
  (λ t, match t with
        | [i; h; w] => item dout [i; c; h; w]
        | _ => szero
        end) <$> indices [m; n_H; n_W].

(** What the input-gradient cell [(i, ch, y, x)] receives from the
    output-gradient entry [t = [i'; c; h; w]] in [Conv.backward], with the
    kernel [K] that the loop reads for filter [c]. *)
Definition dX_share `{Scalar F} (f s : nat) (K dout : ndarray F) (i ch y x : nat)
    (t : list nat) : option F :=
  match t with
  | [i'; c; h; w] =>
      if (i' =? i) && (h * s <=? y) && (y <? h * s + f)
         && (w * s <=? x) && (x <? w * s + f)
      then Some (smul (item dout t) (item K [c; ch; y - h * s; x - w * s]))
      else None
  | _ => None
  end.

(** The kernel [Conv.backward] reads as [W_rot]: the weights with the filter
    axis and the channel axis reversed. *)
Definition flip_filters_channels {F} (Wv : ndarray F) (n_F C : nat) : ndarray F :=
  NdArray (shape Wv) (λ idx,
    match idx with
    | [c; ch; u; v] => item Wv [n_F - 1 - c; C - 1 - ch; u; v]
    | _ => item Wv idx
    end).

(** The sum of the entries of [X[i]] over all channels and the f-by-f window
    at [(hs, ws)]. *)
Definition window_sum `{Scalar F} (X : ndarray F) (i hs ws C f : nat) : F :=
  ssum ((λ t, match t with
              | [ch; y; x] => item X [i; ch; hs + y; ws + x]
              | _ => szero
              end) <$> indices [C; f; f]).

(** The last window of an axis of extent [n] ends inside the array. *)
Definition fits (n p f s : nat) : Prop := (n + 2 * p - f) / s * s + f ≤ n.

(** ** Loops over views, described *)

Section loop_descriptions.
Context {F : Type} `{Scalar F}.

(** What the iteration [t] of a loop [A[specs t] += R t] adds at [idx]. *)
Definition contribution {T} (specs : T → list index) (R : T → ndarray F)
    (sh idx : list nat) (t : T) : option F :=
  v ← from_base (specs t) sh idx; Some (item (R t) (bidx (shape (R t)) v)).

(** What the iteration [t] of a loop [A[specs t] = g t] writes at [idx]. *)
Definition written {T} (specs : T → list index) (g : T → F)
    (sh idx : list nat) (t : T) : option F :=
  _ ← from_base (specs t) sh idx; Some (g t).

(** The view and the right-hand side of the iteration [t = [i; c; h; w]]
    of [AvgPool.backward]. *)
Definition back_specs (L : AvgPool.t F) (t : list nat) : list index :=
  match t with
  | [i; c; h; w] =>
      [At i; At c;
       Slice (h * AvgPool.s L) (h * AvgPool.s L + AvgPool.f L);
       Slice (w * AvgPool.s L) (w * AvgPool.s L + AvgPool.f L)]
  | _ => []
  end.

Definition back_rhs (L : AvgPool.t F) (dout : ndarray F) (n_H n_W : nat)
    (t : list nat) : ndarray F :=
  np_full [AvgPool.f L; AvgPool.f L] (sdiv (item dout t) (sof_nat (n_H * n_W))).

(** The views and the right-hand sides of the iteration [t = [i; c; h; w]]
    of [Conv.backward], for the weight gradient and the input gradient. *)
Definition dW_specs (t : list nat) : list index :=
  match t with
  | [i; c; h; w] => [At c]
  | _ => []
  end.

Definition dW_rhs (L : Conv.t F) (X dout : ndarray F) (C : nat) (t : list nat)
    : ndarray F :=
  match t with
  | [i; c; h; w] =>
      scale (item dout t)
        (NdArray [C; Conv.f L; Conv.f L] (λ v,
           item X (to_base [At i; All;
                            Slice (h * Conv.s L) (h * Conv.s L + Conv.f L);
                            Slice (w * Conv.s L) (w * Conv.s L + Conv.f L)]
                           (shape X) v)))
  | _ => zeros []
  end.

Definition dX_specs (L : Conv.t F) (t : list nat) : list index :=
  match t with
  | [i; c; h; w] =>
      [At i; All;
       Slice (h * Conv.s L) (h * Conv.s L + Conv.f L);
       Slice (w * Conv.s L) (w * Conv.s L + Conv.f L)]
  | _ => []
  end.

Definition dX_rhs (L : Conv.t F) (W_rot dout : ndarray F) (C : nat) (t : list nat)
    : ndarray F :=
  match t with
  | [i; c; h; w] =>
      scale (item dout t)
        (NdArray [C; Conv.f L; Conv.f L] (λ v, item W_rot (c :: v)))
  | _ => zeros []
  end.
End loop_descriptions.

(** ** Concrete inputs *)

(** Arrays over the rationals, written as nested lists. *)
Definition nth4 {F} (d : F) (l : list (list (list (list F)))) (idx : list nat) : F :=
  match idx with
  | [i; c; h; w] => nth w (nth h (nth c (nth i l []) []) []) d
  | _ => d
  end.

Definition of_list4 {F} (d : F) (sh : list nat) (l : list (list (list (list F)))) : ndarray F :=
  NdArray sh (nth4 d l).

Definition nth2 {F} (d : F) (l : list (list F)) (idx : list nat) : F :=
  match idx with
  | [i; j] => nth j (nth i l []) d
  | _ => d
  end.

Definition of_list2 {F} (d : F) (sh : list nat) (l : list (list F)) : ndarray F :=
  NdArray sh (nth2 d l).

Definition qc (z : Z) : Qc := Q2Qc (inject_Z z).

(** The shape and the entries, in row-major order, of an array of rationals. *)
Definition entries (A : ndarray Qc) : list nat * list Q :=
  (shape A, (λ idx, Qcanon.this (item A idx)) <$> indices (shape A)).

(** The 180-degree rotation of every filter over its two spatial axes. *)
Definition rot180_spatial {F} (Wv : ndarray F) (f : nat) : ndarray F :=
  NdArray (shape Wv) (λ idx,
    match idx with
    | [c; ch; y; x] => item Wv [c; ch; f - 1 - y; f - 1 - x]
    | _ => item Wv idx
    end).

Definition X33 : ndarray Qc :=
  of_list4 (qc 0) [1; 1; 3; 3]
    [[[[qc 1; qc 2; qc 3]; [qc 4; qc 5; qc 6]; [qc 7; qc 8; qc 9]]]].
Definition X22 : ndarray Qc :=
  of_list4 (qc 0) [1; 1; 2; 2] [[[[qc 5; qc 6]; [qc 7; qc 8]]]].
Definition K22 : ndarray Qc :=
  of_list4 (qc 0) [1; 1; 2; 2] [[[[qc 1; qc 2]; [qc 3; qc 4]]]].
Definition B1 : ndarray Qc := NdArray [1; 1] (λ _, qc 10).
Definition D11 : ndarray Qc := NdArray [1; 1; 1; 1] (λ _, qc 1).
Definition Z22 : ndarray Qc := NdArray [1; 1; 2; 2] (λ _, qc 0).

(** [Conv(1, 2, 1, stride=1, padding=0)] and [Conv(1, 3, 1, stride=1, padding=1)]. *)
Definition conv_2x2 : Conv.t Qc := Conv.init 1 2 1 1 0 K22 B1.

(** Two 1-by-1 filters, 3 and 7, and an output gradient that is 1 in the
    channel of the first filter and 0 in the channel of the second. *)
Definition K_two_filters : ndarray Qc :=
  of_list4 (qc 0) [2; 1; 1; 1] [[[[qc 3]]]; [[[qc 7]]]].
Definition B2 : ndarray Qc := NdArray [2; 1] (λ _, qc 0).
Definition X11 : ndarray Qc := NdArray [1; 1; 1; 1] (λ _, qc 1).
Definition D_first : ndarray Qc :=
  of_list4 (qc 0) [1; 2; 1; 1] [[[[qc 1]]; [[qc 0]]]].
Definition conv_two_filters : Conv.t Qc := Conv.init 2 1 1 1 0 K_two_filters B2.

(** An input with two channels that differ: one cell each, 1 and 3. *)
Definition X_two_channels : ndarray Qc :=
  of_list4 (qc 0) [1; 2; 1; 1] [[[[qc 1]]; [[qc 3]]]].

(** [Fc(2, 3)] with an input of four columns. *)
Definition W23 : ndarray Qc :=
  of_list2 (qc 0) [2; 3] [[qc 1; qc 2; qc 3]; [qc 4; qc 5; qc 6]].
Definition b21 : ndarray Qc := of_list2 (qc 0) [2; 1] [[qc 1]; [qc 2]].
Definition x34 : ndarray Qc := NdArray [3; 4] (λ _, qc 1).
Definition delta24 : ndarray Qc := NdArray [2; 4] (λ _, qc 1).
Definition fc_2x3 : Fc.t Qc := Fc.init 2 3 W23 b21.

(** The shapes of the value and of the gradient of the two parameters. *)
Definition param_shapes (L : Fc.t Qc) : list (list nat * list nat) :=
  [(shape (Fc.val (Fc.W L)), np_shape (Fc.grad (Fc.W L)));
   (shape (Fc.val (Fc.b L)), np_shape (Fc.grad (Fc.b L)))].

Definition fc_2x3_cached : Fc.t Qc :=
  {| Fc.row := 2; Fc.col := 3; Fc.W := Fc.W fc_2x3; Fc.b := Fc.b fc_2x3;
     Fc.cache := Some x34 |}.

(** An optimizer over the reals whose ten parameters, moments and gradients
    are vectors of length one. *)
Definition r1 (x : R) : ndarray R := NdArray [1] (λ _, x).

Definition adam_params : gmap string (ndarray R) :=
  list_to_map ((λ k, (k, r1 1%R)) <$> tracked).
Definition adam_grads : gmap string (ndarray R) :=
  list_to_map ((λ k, ("d" +:+ k, r1 2%R)) <$> tracked).
Definition adam_attrs : gmap string (ndarray R) :=
  list_to_map (((λ k, ("vd" +:+ k, r1 0%R)) <$> tracked)
               ++ ((λ k, ("sd" +:+ k, r1 0%R)) <$> tracked)).
Definition adam_store : gmap nat (gmap string (ndarray R)) := {[ 7 := adam_params ]}.
Definition adam : AdamGD.t R :=
  {| AdamGD.lr := 1%R; AdamGD.beta1 := 0%R; AdamGD.beta2 := 0%R;
     AdamGD.epsilon := 1%R; AdamGD.params := 7; AdamGD.attrs := adam_attrs |}.

(** ** Softmax and CrossEntropyLoss *)

(** What the development needs of [np.exp], [np.log] and the unary minus. *)
Class Exponential (F : Type) := {
  sexp : F → F;
  slog : F → F;
  sneg : F → F
}.

#[export] Instance R_Exponential : Exponential R := {|
  sexp := exp;
  slog := ln;
  sneg := Ropp
|}.

Module Softmax.
Section defs.
Context {F : Type} `{Scalar F} `{Exponential F}.

(** [np.exp(X) / np.sum(np.exp(X), axis=0)], for an input with at least one
    axis, which is where [np_sum_axis0] follows numpy. *)
Definition forward (X : ndarray F) : option (ndarray F) :=
  let e := np_map sexp X in
  sums ← np_sum_axis0 (np_map sexp X);
  np_binop sdiv e sums.
End defs.
End Softmax.

Module CrossEntropyLoss.
Section defs.
Context {F : Type} `{Scalar F} `{Exponential F}.

(** [batch_size = y_pred.shape[1]]; [deltaL = y_pred - y];
    [loss = -np.sum(y * np.log(y_pred)) / batch_size].  The quotient is a
    numpy scalar divided by a Python integer, which does not raise. *)
Definition get (y_pred y : ndarray F) : option (F * ndarray F) :=
  batch_size ← shape y_pred !! 1;
  deltaL ← np_binop ssub y_pred y;
  prod ← np_binop smul y (np_map slog y_pred);
  let loss := sdiv (sneg (np_sum prod)) (sof_nat batch_size) in
  Some (loss, deltaL).
End defs.
End CrossEntropyLoss.

(** ** Lifetimes *)

(** The states a [Conv] layer goes through, from [L0], by calls of [forward]
    and [backward] that return. *)
Inductive conv_reach {F : Type} `{Scalar F} (L0 : Conv.t F) : Conv.t F → Prop :=
  | reach_start : conv_reach L0 L0
  | reach_forward L X L' out :
      conv_reach L0 L → Conv.forward L X = Some (L', out) → conv_reach L0 L'
  | reach_backward L dout L' r :
      conv_reach L0 L → Conv.backward L dout = Some (L', r) → conv_reach L0 L'.

(** ** Extents *)


(** ** The optimizer between steps *)

(** The optimizer is ready: the dictionary at its address holds the ten
    tracked parameters, and each has its two moments, of its own shape. *)
Definition adam_ready `{Scalar F} (self : AdamGD.t F) (h : store F) : Prop :=
  ∃ d, h !! AdamGD.params self = Some d
    ∧ ∀ k, k ∈ tracked → ∃ par v sq,
        d !! k = Some par
        ∧ AdamGD.attrs self !! ("vd" +:+ k) = Some v
        ∧ AdamGD.attrs self !! ("sd" +:+ k) = Some sq
        ∧ shape v = shape par ∧ shape sq = shape par.

(** The gradient mapping has one gradient per tracked parameter of the
    dictionary at the address [a], of the shape of the parameter. *)
Definition grads_fit {F} (h : store F) (a : nat) (grads : dict F) : Prop :=
  ∃ d, h !! a = Some d
    ∧ ∀ k, k ∈ tracked → ∃ par g,
        d !! k = Some par ∧ grads !! ("d" +:+ k) = Some g ∧ shape g = shape par.

(** ** More concrete inputs *)

(** [AvgPool(2, 1)], and [AvgPool(4, 2)], whose filter is longer than a
    3-by-3 input by less than its stride. *)
Definition pool_2x2 : AvgPool.t Qc := AvgPool.init 2 1.

(** Scores and one-hot labels of two classes for two examples, over the
    reals. *)
Definition scores22 : ndarray R := NdArray [2; 2] (λ _, 0%R).
Definition labels22 : ndarray R :=
  NdArray [2; 2] (λ idx, match idx with
                         | 0 :: _ => 1%R
                         | _ => 0%R
                         end).

(** * Properties *)

(** ** Loops *)

Lemma bind_Some {A B} (x : A) (k : A → option B) : (Some x ≫= k) = k x.
Proof. reflexivity. Qed.

Lemma for_each_app {A S} (l1 l2 : list A) (body : A → S → option S) st :
  for_each (l1 ++ l2) body st = st' ← for_each l1 body st; for_each l2 body st'.
Proof.
  revert st. induction l1 as [|a l1 IH]; intros st; simpl; [done|].
  destruct (body a st); simpl; [apply IH | done].
Qed.

Lemma for_each_ext {A S} (l : list A) (b1 b2 : A → S → option S) st :
  (∀ a st, a ∈ l → b1 a st = b2 a st) → for_each l b1 st = for_each l b2 st.
Proof.
  revert st. induction l as [|a l IH]; intros st Hb; simpl; [done|].
  rewrite Hb by left. destruct (b2 a st); simpl; [|done].
  apply IH. intros; apply Hb. by right.
Qed.

Lemma for_each_fmap {A B S} (g : A → B) (l : list A) (body : B → S → option S) st :
  for_each (g <$> l) body st = for_each l (λ a, body (g a)) st.
Proof.
  revert st. induction l as [|a l IH]; intros st; simpl; [done|].
  destruct (body (g a) st); simpl; [apply IH | done].
Qed.

Lemma for_each_bind {A B S} (g : A → list B) (l : list A) (body : B → S → option S) st :
  for_each (l ≫= g) body st = for_each l (λ a, for_each (g a) body) st.
Proof.
  revert st. induction l as [|a l IH]; intros st; simpl; [done|].
  rewrite for_each_app. destruct (for_each (g a) body st); simpl; [apply IH | done].
Qed.

(** A loop nest over [range]s is one loop over the indices of the shape. *)
Lemma for_range_nest {S} (n : nat) (sh : list nat) (body : list nat → S → option S) st :
  for_range n (λ k, for_each (indices sh) (λ t, body (k :: t))) st
  = for_each (indices (n :: sh)) body st.
Proof.
  unfold for_range. simpl. rewrite for_each_bind.
  apply for_each_ext. intros k st' _. by rewrite for_each_fmap.
Qed.

Lemma for_range_leaf {S} (n : nat) (body : list nat → S → option S) st :
  for_range n (λ k, body [k]) st = for_each (indices [n]) body st.
Proof.
  unfold for_range. simpl. rewrite for_each_bind.
  apply for_each_ext. intros k st' _. simpl. by destruct (body [k] st').
Qed.

Lemma for_range_ext {S} n (b1 b2 : nat → S → option S) st :
  (∀ k st, k < n → b1 k st = b2 k st) → for_range n b1 st = for_range n b2 st.
Proof.
  intros Hb. apply for_each_ext. intros k st' Hk. apply Hb.
  apply elem_of_seq in Hk. lia.
Qed.

(** A loop that updates two variables independently is two loops. *)
Lemma for_each_pair {A S T} (l : list A) (ba : A → S → option S) (bb : A → T → option T) a b :
  for_each l (λ x '(a, b), a' ← ba x a; b' ← bb x b; Some (a', b')) (a, b)
  = a' ← for_each l ba a; b' ← for_each l bb b; Some (a', b').
Proof.
  revert a b. induction l as [|x l IH]; intros a b; simpl; [done|].
  destruct (ba x a) as [a'|]; simpl; [|done].
  destruct (bb x b) as [b'|]; simpl.
  - apply IH.
  - by destruct (for_each l ba a').
Qed.

(** ** Shapes and indices *)

Lemma in_bounds_length sh idx : in_bounds sh idx = true → length idx = length sh.
Proof.
  revert idx. induction sh as [|d sh IH]; intros [|k idx]; simpl; try done.
  intros [_ ?]%andb_prop. f_equal. by apply IH.
Qed.

Lemma elem_of_indices sh idx : idx ∈ indices sh ↔ in_bounds sh idx = true.
Proof.
  revert idx. induction sh as [|d sh IH]; intros idx; simpl.
  - rewrite list_elem_of_singleton. destruct idx; split; congruence.
  - rewrite list_elem_of_bind. split.
    + intros (k & Hidx & Hk). apply list_elem_of_fmap in Hidx as (t & -> & Ht).
      apply elem_of_seq in Hk. apply IH in Ht. simpl. rewrite Ht.
      rewrite andb_true_r. apply Nat.ltb_lt. lia.
    + destruct idx as [|k t]; [done|]. intros [Hk Ht]%andb_prop.
      apply Nat.ltb_lt in Hk. exists k. split.
      * apply list_elem_of_fmap. exists t. split; [done|]. by apply IH.
      * apply elem_of_seq. lia.
Qed.

Lemma in_bounds4 a b c d i j k l :
  in_bounds [a; b; c; d] [i; j; k; l] = true ↔ i < a ∧ j < b ∧ k < c ∧ l < d.
Proof.
  simpl. rewrite !andb_true_iff, !Nat.ltb_lt. tauto.
Qed.

Lemma in_bounds2 a b i j :
  in_bounds [a; b] [i; j] = true ↔ i < a ∧ j < b.
Proof.
  simpl. rewrite !andb_true_iff, !Nat.ltb_lt. tauto.
Qed.

Lemma in_bounds3 a b c i j k :
  in_bounds [a; b; c] [i; j; k] = true ↔ i < a ∧ j < b ∧ k < c.
Proof.
  simpl. rewrite !andb_true_iff, !Nat.ltb_lt. tauto.
Qed.

Lemma in_bounds_inv3 a b c idx :
  in_bounds [a; b; c] idx = true →
  ∃ i j k, idx = [i; j; k] ∧ i < a ∧ j < b ∧ k < c.
Proof.
  intros Hb. pose proof (in_bounds_length _ _ Hb) as Hl.
  destruct idx as [|i [|j [|k [|]]]]; try done.
  exists i, j, k. split; [done|]. simpl in Hb.
  rewrite !andb_true_iff, !Nat.ltb_lt in Hb. tauto.
Qed.

Lemma in_bounds_inv4 a b c d idx :
  in_bounds [a; b; c; d] idx = true →
  ∃ i j k l, idx = [i; j; k; l] ∧ i < a ∧ j < b ∧ k < c ∧ l < d.
Proof.
  intros Hb. pose proof (in_bounds_length _ _ Hb) as Hl.
  destruct idx as [|i [|j [|k [|l [|]]]]]; try done.
  exists i, j, k, l. split; [done|]. by apply in_bounds4.
Qed.

(** With equal shapes, broadcasting is the plain element-wise operation. *)
Lemma bshape_rev_same r : bshape_rev r r = Some r.
Proof.
  induction r as [|a r IH]; simpl; [done|].
  rewrite IH. simpl. by rewrite Nat.eqb_refl.
Qed.

Lemma bshape_same sh : bshape sh sh = Some sh.
Proof. unfold bshape. rewrite bshape_rev_same. simpl. by rewrite reverse_involutive. Qed.

Lemma broadcastable_same sh : broadcastable sh sh = true.
Proof. unfold broadcastable. apply bool_decide_eq_true. apply bshape_same. Qed.

Lemma bidx_axis d k : k < d → (if d =? 1 then 0 else k) = k.
Proof. intros Hk. destruct (Nat.eqb_spec d 1); lia. Qed.

Lemma bidx_zip_in_bounds sh idx :
  in_bounds sh idx = true →
  zip_with (λ d x, if d =? 1 then 0 else x) sh idx = idx.
Proof.
  revert idx. induction sh as [|d sh IH]; intros [|k idx]; simpl; try done.
  intros [Hk Hb]%andb_prop. apply Nat.ltb_lt in Hk. rewrite IH by done.
  destruct (Nat.eqb_spec d 1); [|done]. f_equal. lia.
Qed.

Lemma bidx_in_bounds sh idx : in_bounds sh idx = true → bidx sh idx = idx.
Proof.
  intros Hb. unfold bidx. rewrite (in_bounds_length _ _ Hb), Nat.sub_diag.
  rewrite drop_0. by apply bidx_zip_in_bounds.
Qed.

Lemma for_range4 {S} (body : list nat → S → option S) m a b c st :
  for_range m (λ i, for_range a (λ j, for_range b (λ h, for_range c (λ w,
    body [i; j; h; w])))) st
  = for_each (indices [m; a; b; c]) body st.
Proof.
  rewrite <- for_range_nest. apply for_range_ext. intros i st1 _.
  rewrite <- for_range_nest. apply for_range_ext. intros j st2 _.
  rewrite <- for_range_nest. apply for_range_ext. intros h st3 _.
  apply (for_range_leaf c (λ t, body (i :: j :: h :: t))).
Qed.

Lemma for_range3 {S} (body : list nat → S → option S) m a b st :
  for_range m (λ i, for_range a (λ h, for_range b (λ w, body [i; h; w]))) st
  = for_each (indices [m; a; b]) body st.
Proof.
  rewrite <- for_range_nest. apply for_range_ext. intros i st1 _.
  rewrite <- for_range_nest. apply for_range_ext. intros h st2 _.
  apply (for_range_leaf b (λ t, body (i :: h :: t))).
Qed.

Lemma for_each_preserves {A S} (P : S → Prop) (l : list A) (body : A → S → option S) st st' :
  (∀ a st st', body a st = Some st' → P st → P st') →
  P st → for_each l body st = Some st' → P st'.
Proof.
  intros Hbody. revert st. induction l as [|a l IH]; intros st HP Hloop; simpl in Hloop.
  - by injection Hloop as <-.
  - destruct (body a st) as [st1|] eqn:Hb; simpl in Hloop; [|done].
    apply (IH st1); [|done]. by apply (Hbody a st).
Qed.



Section array_facts.
Context {F : Type} `{Scalar F}.



Lemma setitem_shape (A A' : ndarray F) specs v :
  setitem A specs v = Some A' → shape A' = shape A.
Proof.
  unfold setitem. destruct (view_shape specs (shape A)); simpl; [|done].
  by intros [= <-].
Qed.

Lemma get_Some (A : ndarray F) idx :
  in_bounds (shape A) idx = true → get A idx = Some (item A idx).
Proof. intros Hb. unfold get. by rewrite Hb. Qed.

Lemma np_binop_same op (A B : ndarray F) :
  shape A = shape B →
  ∃ C, np_binop op A B = Some C ∧ shape C = shape A
    ∧ ∀ idx, in_bounds (shape A) idx = true → item C idx = op (item A idx) (item B idx).
Proof.
  intros Hs. unfold np_binop. rewrite <- Hs, bshape_same. simpl.
  eexists. split; [done|]. split; [done|]. simpl. intros idx Hb.
  by rewrite bidx_in_bounds.
Qed.

Lemma iadd_Some (A : ndarray F) specs (R : ndarray F) vs :
  view_shape specs (shape A) = Some vs →
  broadcastable (shape R) vs = true →
  iadd A specs R
  = Some (NdArray (shape A) (λ idx,
      match from_base specs (shape A) idx with
      | Some v => sadd (item A idx) (item R (bidx (shape R) v))
      | None => item A idx
      end)).
Proof. intros Hvs Hbc. unfold iadd. rewrite Hvs. simpl. by rewrite Hbc. Qed.

(** A loop that adds into a view at every iteration: each cell ends up
    with the contributions of the iterations whose view contains it,
    added in the order of the loop. *)
Lemma iadd_loop {T} (l : list T) (specs : T → list index)
    (rhs : T → option (ndarray F)) (R : T → ndarray F) (A : ndarray F) :
  (∀ t, t ∈ l → rhs t = Some (R t)
     ∧ ∃ vs, view_shape (specs t) (shape A) = Some vs
             ∧ broadcastable (shape (R t)) vs = true) →
  ∃ A', for_each l (λ t A, r ← rhs t; iadd A (specs t) r) A = Some A'
    ∧ shape A' = shape A
    ∧ ∀ idx, item A' idx
        = foldl sadd (item A idx) (omap (contribution specs R (shape A) idx) l).
Proof.
  revert A. induction l as [|t l IH]; intros A Hl.
  - exists A. by repeat split.
  - destruct (Hl t) as (Hr & vs & Hvs & Hbc); [by left|].
    simpl. rewrite Hr. simpl. rewrite (iadd_Some _ _ _ vs) by done. simpl.
    set (A1 := NdArray _ _).
    destruct (IH A1) as (A' & Hloop & Hsh & Hitem).
    { intros t' Ht'. apply Hl. by right. }
    exists A'. split; [done|]. split; [done|].
    intros idx. rewrite Hitem. subst A1. simpl. unfold contribution at 2.
    by destruct (from_base (specs t) (shape A) idx).
Qed.


Lemma ssum_ext {A} (g1 g2 : A → F) (l : list A) :
  (∀ a, a ∈ l → g1 a = g2 a) → ssum (g1 <$> l) = ssum (g2 <$> l).
Proof.
  intros Hg. f_equal. apply list_fmap_ext. intros i a Ha. apply Hg.
  by apply list_elem_of_lookup_2 in Ha.
Qed.
End array_facts.

(** ** Conv.forward *)

Lemma out_size_floor n p f s :
  1 ≤ s → f ≤ n + 2 * p →
  out_size n p f s = Some (Z.of_nat ((n + 2 * p - f) / s + 1)).
Proof.
  intros Hs Hf. unfold out_size. destruct (Nat.eqb_spec s 0); [lia|].
  f_equal. rewrite Z.quot_div_nonneg by lia.
  rewrite Nat2Z.inj_add, Nat2Z.inj_div, Nat2Z.inj_sub by lia. f_equal. f_equal. lia.
Qed.

Lemma fits_no_padding n f s : f ≤ n → fits n 0 f s.
Proof.
  intros Hf. unfold fits. rewrite Nat.mul_0_r, Nat.add_0_r.
  destruct s as [|s]; [simpl; lia|].
  pose proof (Nat.Div0.mul_div_le (n - f) (S s)). lia.
Qed.

Lemma fits_window n p f s h :
  fits n p f s → h < (n + 2 * p - f) / s + 1 → h * s + f ≤ n.
Proof. unfold fits. intros Hfit Hh. nia. Qed.

Section conv_forward.
Context {F : Type} `{Scalar F}.
Import Conv.


(** Whatever the padding, a result of [forward] has the shape that the
    output-size formula gives. *)
Lemma Conv_forward_shape (L : Conv.t F) X m C H0 Wd L' out :
  shape X = [m; C; H0; Wd] →
  1 ≤ s L → f L ≤ H0 + 2 * p L → f L ≤ Wd + 2 * p L →
  forward L X = Some (L', out) →
  shape out = [m; n_F L; (H0 + 2 * p L - f L) / s L + 1;
               (Wd + 2 * p L - f L) / s L + 1].
Proof.
  intros HX Hs HfH HfW. unfold forward. rewrite HX. simpl.
  rewrite !out_size_floor by done. simpl.
  change (p L + (p L + 0)) with (2 * p L).
  unfold np_zeros. simpl. rewrite !(proj2 (Z.leb_le _ _)) by lia. simpl.
  rewrite !Nat2Z.id. set (out0 := NdArray _ _).
  set (sh := [m; n_F L; _; _]).
  destruct (for_range m _ out0) as [out1|] eqn:Hloop; simpl; [|done].
  intros [= <- <-].
  apply (for_each_preserves (λ A, shape A = sh)) in Hloop; [done| |done].
  intros i A A' Hi HA.
  apply (for_each_preserves (λ A, shape A = sh)) in Hi; [done| |done].
  clear. intros c A A' Hc HA.
  apply (for_each_preserves (λ A, shape A = sh)) in Hc; [done| |done].
  clear. intros h A A' Hh HA.
  apply (for_each_preserves (λ A, shape A = sh)) in Hh; [done| |done].
  clear. intros w A A' Hw HA.
  destruct (entry _ _ _ _ _ _); simpl in Hw; [|done].
  apply setitem_shape in Hw. congruence.
Qed.

End conv_forward.

(** ** AvgPool.backward *)

Lemma omap_ext {A B} (g1 g2 : A → option B) (l : list A) :
  (∀ a, a ∈ l → g1 a = g2 a) → omap g1 l = omap g2 l.
Proof.
  induction l as [|a l IH]; intros Hg; csimpl; [done|].
  rewrite (Hg a) by left. rewrite IH; [done|]. intros; apply Hg. by right.
Qed.

Section avgpool_backward.
Context {F : Type} `{Scalar F}.
Import AvgPool.

Lemma backward_loop (L : AvgPool.t F) X dout mX CX H0 Wd m C nH nW :
  cache L = Some X →
  shape X = [mX; CX; H0; Wd] → shape dout = [m; C; nH; nW] →
  m ≤ mX → C ≤ CX →
  (∀ h, h < nH → h * s L + f L ≤ H0) → (∀ w, w < nW → w * s L + f L ≤ Wd) →
  ∃ dX, backward L dout = Some dX ∧ shape dX = shape X
    ∧ ∀ i c y x, item dX [i; c; y; x]
        = foldl sadd (item X [i; c; y; x])
            (omap (share (f L) (s L) dout nH nW i c y x) (indices [m; C; nH; nW])).
Proof.
  intros Hcache HX Hdout Hm HC HfH HfW. unfold backward.
  rewrite Hcache, Hdout. simpl.
  change (for_range m _ X) with
    (for_range m (λ i, for_range C (λ c, for_range nH (λ h, for_range nW (λ w,
       (λ t, match t with
             | [i; c; h; w] => step_back L dout nH nW i c h w
             | _ => λ _, None
             end) [i; c; h; w])))) X).
  rewrite for_range4.
  rewrite (for_each_ext _ _
    (λ t A, r ← Some (back_rhs L dout nH nW t); iadd A (back_specs L t) r)).
  2:{ intros t A Ht. apply elem_of_indices in Ht.
      pose proof Ht as Ht'.
      apply in_bounds_inv4 in Ht as (i & c & h & w & -> & _).
      unfold step_back. rewrite get_Some by (by rewrite Hdout). done. }
  destruct (iadd_loop (indices [m; C; nH; nW]) (back_specs L)
              (λ t, Some (back_rhs L dout nH nW t)) (back_rhs L dout nH nW) X)
    as (dX & -> & Hsh & Hitem).
  { intros t Ht. split; [done|]. apply elem_of_indices in Ht.
    apply in_bounds_inv4 in Ht as (i & c & h & w & -> & Hi & Hc & Hh & Hw).
    exists [f L; f L]. split; [|apply broadcastable_same].
    rewrite HX. simpl.
    rewrite (proj2 (Nat.ltb_lt i mX)), (proj2 (Nat.ltb_lt c CX)) by lia.
    specialize (HfH h Hh). specialize (HfW w Hw).
    rewrite !Nat.min_l by lia. simpl. do 3 f_equal; [|f_equal]; lia. }
  exists dX. split; [done|]. split; [done|].
  intros i c y x. rewrite Hitem. f_equal.
  apply (omap_ext _ _ (indices [m; C; nH; nW])).
  intros t Ht. apply elem_of_indices in Ht.
  apply in_bounds_inv4 in Ht as (i' & c' & h & w & -> & Hi & Hc & Hh & Hw).
  unfold contribution, share. rewrite HX. simpl.
  specialize (HfH h Hh). specialize (HfW w Hw).
  rewrite !Nat.min_l by lia.
  rewrite (Nat.eqb_sym i' i), (Nat.eqb_sym c' c).
  destruct (i =? i'); simpl; [|done].
  destruct (c =? c'); simpl; [|done].
  destruct (h * s L <=? y); simpl; [|done].
  destruct (y <? h * s L + f L); simpl; [|done].
  destruct (w * s L <=? x); simpl; [|done].
  by destruct (x <? w * s L + f L).
Qed.

End avgpool_backward.

(** ** Conv.backward *)

(** Selecting, in a loop nest, the iterations of one value of the second
    loop variable. *)
Lemma select_inner {B} (G : list nat → B) (c' i a n : nat) (S : list (list nat)) :
  omap (λ t, match t with
             | i :: c :: r => if c' =? c then Some (G (i :: r)) else None
             | _ => None
             end) ((λ t, i :: t) <$> (c ← seq a n; (λ t, c :: t) <$> S))
  = if bool_decide (a ≤ c' < a + n) then (λ r, G (i :: r)) <$> S else [].
Proof.
  revert a. induction n as [|n IH]; intros a.
  - simpl. case_bool_decide; [lia|done].
  - cbn [seq]. rewrite bind_cons, fmap_app, omap_app, IH.
    assert (omap (λ t, match t with
                       | i :: c :: r => if c' =? c then Some (G (i :: r)) else None
                       | _ => None
                       end) ((λ t, i :: t) <$> ((λ t, a :: t) <$> S))
            = if bool_decide (c' = a) then (λ r, G (i :: r)) <$> S else []) as ->.
    { clear IH. induction S as [|r S IHS]; csimpl; [by case_bool_decide|].
      rewrite IHS. destruct (Nat.eqb_spec c' a); case_bool_decide; try done. }
    repeat case_bool_decide; try lia; try done. by rewrite app_nil_r.
Qed.

Lemma select_axis1 {B} (G : list nat → B) (c' m n : nat) (sh : list nat) :
  c' < n →
  omap (λ t, match t with
             | i :: c :: r => if c' =? c then Some (G (i :: r)) else None
             | _ => None
             end) (indices (m :: n :: sh))
  = G <$> indices (m :: sh).
Proof.
  intros Hc. cbn [indices]. generalize (seq 0 m) as li.
  induction li as [|i li IH]; [done|].
  rewrite !bind_cons, omap_app, fmap_app, IH. f_equal.
  rewrite select_inner. rewrite bool_decide_eq_true_2 by lia.
  by rewrite <- list_fmap_compose.
Qed.

Section rot90.
Context {F : Type} `{Scalar F}.

(** Two [np.rot90] with the default axes reverse the first two axes of a
    four-dimensional array, the filter and the channel axis of a weight
    tensor, and leave the two spatial axes as they are. *)
Lemma rot90_rot90 (A : ndarray F) a b c d :
  shape A = [a; b; c; d] →
  ∃ R1 R, np_rot90 A = Some R1 ∧ np_rot90 R1 = Some R
    ∧ shape R = [a; b; c; d]
    ∧ ∀ x y u v, item R [x; y; u; v] = item A [a - 1 - x; b - 1 - y; u; v].
Proof.
  intros HA. unfold np_rot90, np_flip, np_transpose01. rewrite HA. simpl.
  eexists. eexists. split; [done|]. simpl. split; [done|]. split; [done|]. done.
Qed.
End rot90.

Lemma last_cons_default {A} (x v : A) (r : list A) :
  default x (last (v :: r)) = default v (last r).
Proof.
  destruct r as [|a r]; [done|].
  change (last (v :: a :: r)) with (last (a :: r)).
  destruct (last (a :: r)) eqn:Hl; [done|].
  by apply last_None in Hl.
Qed.

Lemma last_all_equal {A} (v : A) (r : list A) :
  r ≠ [] → (∀ w, w ∈ r → w = v) → last r = Some v.
Proof.
  induction r as [|a r IH]; [done|]. intros _ Hall.
  destruct r as [|b r].
  - simpl. f_equal. apply Hall. by left.
  - change (last (a :: b :: r)) with (last (b :: r)). apply IH; [done|].
    intros w Hw. apply Hall. by right.
Qed.

Section setitem_loops.
Context {F : Type} `{Scalar F}.

(** A loop that assigns a scalar to a view at every iteration: each cell
    holds what the last iteration whose view contains it wrote. *)
Lemma setitem_loop {T} (l : list T) (specs : T → list index)
    (vopt : T → option F) (g : T → F) (A : ndarray F) :
  (∀ t, t ∈ l → vopt t = Some (g t) ∧ is_Some (view_shape (specs t) (shape A))) →
  ∃ A', for_each l (λ t A, v ← vopt t; setitem A (specs t) v) A = Some A'
    ∧ shape A' = shape A
    ∧ ∀ idx, item A' idx
        = default (item A idx) (last (omap (written specs g (shape A) idx) l)).
Proof.
  revert A. induction l as [|t l IH]; intros A Hl.
  - exists A. by repeat split.
  - destruct (Hl t) as (Hv & vs & Hvs); [by left|].
    simpl. rewrite Hv. simpl.
    assert (setitem A (specs t) (g t)
            = Some (NdArray (shape A) (λ idx,
                match from_base (specs t) (shape A) idx with
                | Some _ => g t
                | None => item A idx
                end))) as ->.
    { unfold setitem. by rewrite Hvs. }
    simpl. set (A1 := NdArray _ _).
    destruct (IH A1) as (A' & Hloop & Hsh & Hitem).
    { intros t' Ht'. apply Hl. by right. }
    exists A'. split; [done|]. split; [done|].
    intros idx. rewrite Hitem. subst A1. simpl. unfold written at 2.
    destruct (from_base (specs t) (shape A) idx); simpl; [|done].
    by rewrite last_cons_default.
Qed.

Lemma written_unique {T} (l : list T) (specs : T → list index) (g : T → F)
    sh idx t0 :
  t0 ∈ l → is_Some (from_base (specs t0) sh idx) →
  (∀ t, t ∈ l → is_Some (from_base (specs t) sh idx) → g t = g t0) →
  last (omap (written specs g sh idx) l) = Some (g t0).
Proof.
  intros Hin [v Hv] Huniq. apply last_all_equal.
  - intros Hnil.
    assert (g t0 ∈ omap (written specs g sh idx) l) as Hel.
    { apply list_elem_of_omap. exists t0. split; [done|].
      unfold written. by rewrite Hv. }
    rewrite Hnil in Hel. by apply elem_of_nil in Hel.
  - intros w Hw. apply list_elem_of_omap in Hw as (t & Ht & Hwr).
    unfold written in Hwr.
    destruct (from_base (specs t) sh idx) eqn:Hfb; [|done].
    injection Hwr as <-. apply Huniq; [done|]. by rewrite Hfb.
Qed.
End setitem_loops.

Section conv_backward.
Context {F : Type} `{Scalar F}.
Import Conv.

Lemma backward_ok (L : Conv.t F) X dout mX C H0 Wd m nH nW :
  cache L = Some X →
  shape X = [mX; C; H0; Wd] →
  shape dout = [m; n_F L; nH; nW] →
  shape (val (W L)) = [n_F L; C; f L; f L] →
  shape (grad (W L)) = [n_F L; C; f L; f L] →
  shape (grad (b L)) = [n_F L; 1] →
  m ≤ mX →
  (∀ h, h < nH → h * s L + f L ≤ H0) → (∀ w, w < nW → w * s L + f L ≤ Wd) →
  ∃ dX Wg bg, backward L dout = Some (set_grads L Wg bg, (dX, Wg, bg))
    ∧ shape dX = shape X
    ∧ shape Wg = shape (grad (W L))
    ∧ shape bg = shape (grad (b L))
    ∧ (∀ c ch y x, c < n_F L → ch < C → y < f L → x < f L →
         item Wg [c; ch; y; x]
         = foldl sadd (item (grad (W L)) [c; ch; y; x])
             (dW_terms (s L) X dout c ch y x m nH nW))
    ∧ (∀ c, c < n_F L → item bg [c; 0] = ssum (db_terms dout c m nH nW))
    ∧ (∀ i ch y x, ch < C →
         item dX [i; ch; y; x]
         = foldl sadd szero
             (omap (dX_share (f L) (s L)
                      (flip_filters_channels (val (W L)) (n_F L) C) dout i ch y x)
                   (indices [m; n_F L; nH; nW]))).
Proof.
  intros Hcache HX Hdout HWv HWg Hbg Hm HfH HfW. unfold backward.
  rewrite Hcache. simpl. rewrite HX, Hdout. simpl.
  destruct (rot90_rot90 (val (W L)) _ _ _ _ HWv) as (R1 & R & -> & HR & HRsh & HRitem).
  simpl. rewrite HR. simpl.
  change (for_range m _ (grad (W L), zeros [mX; C; H0; Wd])) with
    (for_range m (λ i, for_range (n_F L) (λ c, for_range nH (λ h, for_range nW (λ w,
       (λ t '(a, b),
          a' ← match t with
               | [i; c; h; w] => step_dW L X dout i c h w
               | _ => λ _, None
               end a;
          b' ← match t with
               | [i; c; h; w] => step_dX L R dout i c h w
               | _ => λ _, None
               end b;
          Some (a', b')) [i; c; h; w]))))
       (grad (W L), zeros [mX; C; H0; Wd])).
  rewrite for_range4, for_each_pair.
  (* the weight gradient *)
  rewrite (for_each_ext (indices [m; n_F L; nH; nW]) _
    (λ t A, r ← Some (dW_rhs L X dout C t); iadd A (dW_specs t) r) (grad (W L))).
  2:{ intros t A Ht. apply elem_of_indices in Ht. pose proof Ht as Hb.
      apply in_bounds_inv4 in Ht as (i & c & h & w & -> & Hi & Hc & Hh & Hw).
      unfold step_dW, getitem, dW_rhs. rewrite get_Some by (by rewrite Hdout).
      rewrite HX. specialize (HfH h Hh). specialize (HfW w Hw). simpl.
      rewrite (proj2 (Nat.ltb_lt i mX)) by lia.
      rewrite !Nat.min_l by lia.
      replace (h * s L + f L - h * s L) with (f L) by lia.
      replace (w * s L + f L - w * s L) with (f L) by lia. done. }
  destruct (iadd_loop (indices [m; n_F L; nH; nW]) dW_specs
              (λ t, Some (dW_rhs L X dout C t)) (dW_rhs L X dout C) (grad (W L)))
    as (Wg & -> & HWgsh & HWgitem).
  { intros t Ht. split; [done|]. apply elem_of_indices in Ht.
    apply in_bounds_inv4 in Ht as (i & c & h & w & -> & Hi & Hc & Hh & Hw).
    exists [C; f L; f L]. split; [|apply broadcastable_same].
    rewrite HWg. simpl. by rewrite (proj2 (Nat.ltb_lt c (n_F L))). }
  simpl.
  (* the input gradient *)
  rewrite (for_each_ext (indices [m; n_F L; nH; nW]) _
    (λ t A, r ← Some (dX_rhs L R dout C t); iadd A (dX_specs L t) r)
    (zeros [mX; C; H0; Wd])).
  2:{ intros t A Ht. apply elem_of_indices in Ht. pose proof Ht as Hb.
      apply in_bounds_inv4 in Ht as (i & c & h & w & -> & Hi & Hc & Hh & Hw).
      unfold step_dX, getitem, dX_rhs. rewrite get_Some by (by rewrite Hdout).
      rewrite HRsh. simpl. by rewrite (proj2 (Nat.ltb_lt c (n_F L))). }
  destruct (iadd_loop (indices [m; n_F L; nH; nW]) (dX_specs L)
              (λ t, Some (dX_rhs L R dout C t)) (dX_rhs L R dout C)
              (zeros [mX; C; H0; Wd]))
    as (dX & -> & HdXsh & HdXitem).
  { intros t Ht. split; [done|]. apply elem_of_indices in Ht.
    apply in_bounds_inv4 in Ht as (i & c & h & w & -> & Hi & Hc & Hh & Hw).
    exists [C; f L; f L]. split; [|apply broadcastable_same].
    specialize (HfH h Hh). specialize (HfW w Hw). simpl.
    rewrite (proj2 (Nat.ltb_lt i mX)) by lia.
    rewrite !Nat.min_l by lia.
    replace (h * s L + f L - h * s L) with (f L) by lia.
    replace (w * s L + f L - w * s L) with (f L) by lia. done. }
  simpl.
  (* the bias gradient *)
  set (g := λ c, np_sum (NdArray [m; nH; nW]
                   (λ v, item dout (to_base [All; At c] (shape dout) v)))).
  unfold for_range.
  rewrite (for_each_ext (seq 0 (n_F L)) _
    (λ c A, v ← Some (g c); setitem A [At c] v)).
  2:{ intros c A Hc. apply elem_of_seq in Hc.
      unfold g, step_db, getitem. rewrite Hdout. simpl.
      by rewrite (proj2 (Nat.ltb_lt c (n_F L))) by lia. }
  destruct (setitem_loop (seq 0 (n_F L)) (λ c, [At c]) (λ c, Some (g c)) g (grad (b L)))
    as (bg & -> & Hbgsh & Hbgitem).
  { intros c Hc. apply elem_of_seq in Hc. split; [done|].
    rewrite Hbg. simpl. by rewrite (proj2 (Nat.ltb_lt c (n_F L))) by lia. }
  simpl. exists dX, Wg, bg. split; [done|]. split; [done|].
  split; [done|]. split; [done|]. split; [|split].
  - intros c ch y x Hc Hch Hy Hx. rewrite HWgitem. f_equal.
    unfold dW_terms. rewrite <- (select_axis1 _ c m (n_F L) [nH; nW]) by done.
    apply (omap_ext _ _ (indices [m; n_F L; nH; nW])).
    intros t Ht. apply elem_of_indices in Ht.
    apply in_bounds_inv4 in Ht as (i & c' & h & w & -> & Hi & Hc' & Hh & Hw).
    unfold contribution. rewrite HWg. simpl.
    destruct (Nat.eqb_spec c c') as [<-|]; [|done]. simpl.
    specialize (HfH h Hh). specialize (HfW w Hw).
    rewrite HX. simpl. rewrite !Nat.min_l by lia.
    by rewrite !bidx_axis by done.
  - intros c Hc. rewrite Hbgitem.
    rewrite (written_unique _ _ _ _ _ c).
    + simpl. unfold g, np_sum, db_terms. simpl shape.
      apply (ssum_ext _ _ (indices [m; nH; nW])). intros t Ht.
      apply elem_of_indices in Ht.
      apply in_bounds_inv3 in Ht as (i & h & w & -> & _).
      by rewrite Hdout.
    + apply elem_of_seq. lia.
    + rewrite Hbg. simpl. by rewrite Nat.eqb_refl.
    + intros t _. rewrite Hbg. simpl.
      destruct (Nat.eqb_spec c t) as [->|]; [done|]. by intros [? ?].
  - intros i ch y x Hch. rewrite HdXitem. f_equal.
    apply (omap_ext _ _ (indices [m; n_F L; nH; nW])).
    intros t Ht. apply elem_of_indices in Ht.
    apply in_bounds_inv4 in Ht as (i' & c & h & w & -> & Hi & Hc & Hh & Hw).
    unfold contribution, dX_share. simpl.
    specialize (HfH h Hh). specialize (HfW w Hw).
    rewrite !Nat.min_l by lia.
    rewrite (Nat.eqb_sym i' i).
    destruct (i =? i'); simpl; [|done].
    destruct (Nat.leb_spec (h * s L) y); simpl; [|done].
    destruct (Nat.ltb_spec y (h * s L + f L)); simpl; [|done].
    destruct (Nat.leb_spec (w * s L) x); simpl; [|done].
    destruct (Nat.ltb_spec x (w * s L + f L)); simpl; [|done].
    rewrite bidx_in_bounds by (apply in_bounds3; lia).
    by rewrite HRitem.
Qed.

(** C5. [Conv.backward] adds to the weight gradient of filter [c], on top of
    what it held at entry, the products of [dout[i, c, h, w]] with the
    input window at [(h, w)], over all batch indices and output positions;
    from a zero gradient this leaves the sum of these products.  The bias
    gradient of filter [c] is set to the sum of [dout] over the batch and
    the spatial axes of channel [c]. *)
Theorem Conv_backward_grads (L : Conv.t F) X dout mX C H0 Wd m nH nW :
  cache L = Some X →
  shape X = [mX; C; H0; Wd] →
  shape dout = [m; n_F L; nH; nW] →
  shape (val (W L)) = [n_F L; C; f L; f L] →
  shape (grad (W L)) = [n_F L; C; f L; f L] →
  shape (grad (b L)) = [n_F L; 1] →
  m ≤ mX →
  (∀ h, h < nH → h * s L + f L ≤ H0) → (∀ w, w < nW → w * s L + f L ≤ Wd) →
  ∃ L' dX Wg bg, backward L dout = Some (L', (dX, Wg, bg))
    ∧ grad (W L') = Wg ∧ grad (b L') = bg
    ∧ val (W L') = val (W L) ∧ val (b L') = val (b L)
    ∧ (∀ c ch y x, c < n_F L → ch < C → y < f L → x < f L →
         item Wg [c; ch; y; x]
         = foldl sadd (item (grad (W L)) [c; ch; y; x])
             (dW_terms (s L) X dout c ch y x m nH nW))
    ∧ ((∀ idx, in_bounds (shape (grad (W L))) idx = true →
             item (grad (W L)) idx = szero) →
       ∀ c ch y x, c < n_F L → ch < C → y < f L → x < f L →
         item Wg [c; ch; y; x] = ssum (dW_terms (s L) X dout c ch y x m nH nW))
    ∧ (∀ c, c < n_F L → item bg [c; 0] = ssum (db_terms dout c m nH nW)).
Proof.
  intros Hcache HX Hdout HWv HWg Hbg Hm HfH HfW.
  destruct (backward_ok L X dout mX C H0 Wd m nH nW)
    as (dX & Wg & bg & Hback & _ & _ & _ & HWitem & Hbitem & _); try done.
  exists (set_grads L Wg bg), dX, Wg, bg. repeat (split; [done|]).
  split; [|done]. intros Hzero c ch y x Hc Hch Hy Hx.
  rewrite HWitem by done. rewrite Hzero; [done|].
  rewrite HWg. by apply in_bounds4.
Qed.

(** What [Conv.backward] accumulates into the input gradient: the entry
    [dout[i, c, h, w]] times the weights of filter [n_F - 1 - c], channels
    reversed, spatially unrotated. *)
Lemma Conv_backward_dX (L : Conv.t F) X dout mX C H0 Wd m nH nW :
  cache L = Some X →
  shape X = [mX; C; H0; Wd] →
  shape dout = [m; n_F L; nH; nW] →
  shape (val (W L)) = [n_F L; C; f L; f L] →
  shape (grad (W L)) = [n_F L; C; f L; f L] →
  shape (grad (b L)) = [n_F L; 1] →
  m ≤ mX →
  (∀ h, h < nH → h * s L + f L ≤ H0) → (∀ w, w < nW → w * s L + f L ≤ Wd) →
  ∃ L' dX Wg bg, backward L dout = Some (L', (dX, Wg, bg))
    ∧ shape dX = shape X
    ∧ ∀ i ch y x, ch < C →
         item dX [i; ch; y; x]
         = foldl sadd szero
             (omap (dX_share (f L) (s L)
                      (flip_filters_channels (val (W L)) (n_F L) C) dout i ch y x)
                   (indices [m; n_F L; nH; nW])).
Proof.
  intros Hcache HX Hdout HWv HWg Hbg Hm HfH HfW.
  destruct (backward_ok L X dout mX C H0 Wd m nH nW)
    as (dX & Wg & bg & Hback & HdX & _ & _ & _ & _ & HdXitem); try done.
  by exists (set_grads L Wg bg), dX, Wg, bg.
Qed.

Lemma for_each_fails {A S} (l : list A) (body : A → S → option S) t st :
  t ∈ l → (∀ st, body t st = None) → for_each l body st = None.
Proof.
  revert st. induction l as [|a l IH]; intros st Hin Hnone.
  - by apply elem_of_nil in Hin.
  - simpl. apply elem_of_cons in Hin as [<-|Hin].
    + by rewrite Hnone.
    + destruct (body a st); simpl; [by apply IH | done].
Qed.


Lemma iadd_shape (A A' : ndarray F) specs R :
  iadd A specs R = Some A' → shape A' = shape A.
Proof.
  unfold iadd. destruct (view_shape specs (shape A)); simpl; [|done].
  destruct (broadcastable _ _); [|done]. by intros [= <-].
Qed.

(** The half of the shape invariant that holds: [Conv] keeps the gradient of each parameter
    in the shape of its value, from construction on and through every
    forward and backward call. *)
Lemma Conv_init_shapes nF fs nC st pd (W0 b0 : ndarray F) :
  shape W0 = [nF; nC; fs; fs] → shape b0 = [nF; 1] →
  conv_shapes_agree (init nF fs nC st pd W0 b0).
Proof. intros HW Hb. split; simpl; congruence. Qed.

Lemma Conv_forward_shapes (L L' : Conv.t F) X out :
  forward L X = Some (L', out) → conv_shapes_agree L → conv_shapes_agree L'.
Proof.
  unfold forward. intros Hfwd HL.
  destruct (unpack4 (shape X)) as [[[[m C] H0] Wd]|]; simpl in Hfwd; [|done].
  destruct (out_size H0 _ _ _); simpl in Hfwd; [|done].
  destruct (out_size Wd _ _ _); simpl in Hfwd; [|done].
  destruct (np_zeros _); simpl in Hfwd; [|done].
  destruct (for_range m _ _); simpl in Hfwd; [|done].
  by injection Hfwd as <- _.
Qed.

Lemma Conv_backward_shapes (L L' : Conv.t F) dout r :
  backward L dout = Some (L', r) → conv_shapes_agree L → conv_shapes_agree L'.
Proof.
  unfold backward. intros Hback [HW Hb].
  destruct (cache L) as [X|]; simpl in Hback; [|done].
  destruct (unpack4 (shape X)) as [[[[mX C] H0] Wd]|]; simpl in Hback; [|done].
  destruct (unpack4 (shape dout)) as [[[[m nC] nH] nW]|]; simpl in Hback; [|done].
  destruct (np_rot90 (val (W L))) as [r1|]; simpl in Hback; [|done].
  destruct (np_rot90 r1) as [W_rot|]; simpl in Hback; [|done].
  destruct (for_range m _ _) as [[Wg dX]|] eqn:Hloop; simpl in Hback; [|done].
  destruct (for_range (n_F L) _ _) as [bg|] eqn:Hbias; simpl in Hback; [|done].
  injection Hback as <- _. split; simpl.
  - rewrite <- HW.
    apply (for_each_preserves (λ st, shape st.1 = shape (grad (W L)))) in Hloop;
      [done| |done].
    intros i st st' Hi Hst.
    apply (for_each_preserves (λ st, shape st.1 = shape (grad (W L)))) in Hi;
      [done| |done].
    clear. intros c st st' Hc Hst.
    apply (for_each_preserves (λ st, shape st.1 = shape (grad (W L)))) in Hc;
      [done| |done].
    clear. intros h st st' Hh Hst.
    apply (for_each_preserves (λ st, shape st.1 = shape (grad (W L)))) in Hh;
      [done| |done].
    clear. intros w [Wg dX] st' Hw Hst. simpl in *.
    destruct (step_dW _ _ _ _ _ _ _ Wg) as [Wg'|] eqn:HdW; simpl in Hw; [|done].
    destruct (step_dX _ _ _ _ _ _ _ dX) as [dX'|]; simpl in Hw; [|done].
    injection Hw as <-. simpl. unfold step_dW in HdW.
    destruct (get dout _); simpl in HdW; [|done].
    destruct (getitem X _); simpl in HdW; [|done].
    apply iadd_shape in HdW. congruence.
  - rewrite <- Hb.
    apply (for_each_preserves (λ st, shape st = shape (grad (b L)))) in Hbias;
      [done| |done].
    clear. intros c bg bg' Hc Hbg. unfold step_db in Hc.
    destruct (getitem dout _); simpl in Hc; [|done].
    apply setitem_shape in Hc. congruence.
Qed.
End conv_backward.

(** ** AvgPool.forward *)

Section avgpool_forward.
Context {F : Type} `{Scalar F}.
Import AvgPool.

(** What [AvgPool.forward] computes: the cell [(i, c, h, w)] holds the mean
    of the window over all channels together, the same number for every
    channel [c]. *)
Lemma AvgPool_forward_all_channels (L : AvgPool.t F) X m C H0 Wd :
  shape X = [m; C; H0; Wd] →
  1 ≤ s L → f L ≤ H0 → f L ≤ Wd →
  ∃ L' out, forward L X = Some (L', out)
    ∧ cache L' = Some X
    ∧ shape out = [m; C; (H0 - f L) / s L + 1; (Wd - f L) / s L + 1]
    ∧ ∀ i c h w, i < m → c < C →
        h < (H0 - f L) / s L + 1 → w < (Wd - f L) / s L + 1 →
        item out [i; c; h; w]
        = sdiv (window_sum X i (h * s L) (w * s L) C (f L))
               (sof_nat (C * (f L * f L))).
Proof.
  intros HX Hs HfH HfW. unfold forward. rewrite HX. simpl.
  rewrite !out_size_floor by lia. simpl.
  replace (H0 + 0 - f L) with (H0 - f L) by lia.
  replace (Wd + 0 - f L) with (Wd - f L) by lia.
  set (nH := (H0 - f L) / s L + 1). set (nW := (Wd - f L) / s L + 1).
  unfold np_zeros. simpl. rewrite !(proj2 (Z.leb_le _ _)) by lia. simpl.
  rewrite !Nat2Z.id. set (out0 := NdArray _ _).
  assert (∀ h, h < nH → h * s L + f L ≤ H0) as HwinH.
  { intros h Hh. apply (fits_window H0 0); [by apply fits_no_padding|].
    by replace (H0 + 2 * 0 - f L) with (H0 - f L) by lia. }
  assert (∀ w, w < nW → w * s L + f L ≤ Wd) as HwinW.
  { intros w Hw. apply (fits_window Wd 0); [by apply fits_no_padding|].
    by replace (Wd + 2 * 0 - f L) with (Wd - f L) by lia. }
  change (for_range m _ out0) with
    (for_range m (λ i, for_range nH (λ h, for_range nW (λ w,
       (λ t, match t with
             | [i; h; w] => step L X i h w
             | _ => λ _, None
             end) [i; h; w]))) out0).
  rewrite for_range3.
  set (g := λ t, match t with
                 | [i; h; w] => sdiv (window_sum X i (h * s L) (w * s L) C (f L))
                                     (sof_nat (C * (f L * f L)))
                 | _ => szero
                 end).
  set (specs := λ t, match t with
                     | [i; h; w] => [At i; All; At h; At w]
                     | _ => []
                     end).
  rewrite (for_each_ext (indices [m; nH; nW]) _
    (λ t A, v ← Some (g t); setitem A (specs t) v)).
  2:{ intros t A Ht. apply elem_of_indices in Ht.
      apply in_bounds_inv3 in Ht as (i & h & w & -> & Hi & Hh & Hw).
      unfold step, getitem. rewrite HX. simpl.
      rewrite (proj2 (Nat.ltb_lt i m)) by lia.
      specialize (HwinH h Hh). specialize (HwinW w Hw).
      rewrite !Nat.min_l by lia.
      replace (h * s L + f L - h * s L) with (f L) by lia.
      replace (w * s L + f L - w * s L) with (f L) by lia.
      simpl. do 2 f_equal. unfold np_mean, window_sum, np_sum. simpl.
      rewrite Nat.mul_1_r. f_equal.
      apply (ssum_ext _ _ (indices [C; f L; f L])). intros t Ht.
      apply elem_of_indices in Ht.
      by apply in_bounds_inv3 in Ht as (ch & y & x & -> & _). }
  destruct (setitem_loop (indices [m; nH; nW]) specs (λ t, Some (g t)) g out0)
    as (out & -> & Hsh & Hitem).
  { intros t Ht. split; [done|]. apply elem_of_indices in Ht.
    apply in_bounds_inv3 in Ht as (i & h & w & -> & Hi & Hh & Hw). simpl.
    by rewrite (proj2 (Nat.ltb_lt i m)), (proj2 (Nat.ltb_lt h nH)),
      (proj2 (Nat.ltb_lt w nW)) by lia. }
  simpl. eexists _, out. split; [done|]. split; [done|]. split; [done|].
  intros i c h w Hi Hc Hh Hw. rewrite Hitem.
  rewrite (written_unique _ _ _ _ _ [i; h; w]); [done| | |].
  - apply elem_of_indices. by apply in_bounds3.
  - simpl. by rewrite !Nat.eqb_refl.
  - intros t Ht. apply elem_of_indices in Ht.
    apply in_bounds_inv3 in Ht as (i' & h' & w' & -> & _). simpl.
    destruct (Nat.eqb_spec i i') as [->|]; [|by intros [? ?]].
    destruct (Nat.eqb_spec h h') as [->|]; [|by intros [? ?]].
    destruct (Nat.eqb_spec w w') as [->|]; [|by intros [? ?]]. done.
Qed.
End avgpool_forward.

(** ** Fc.backward *)

Section fc_backward.
Context {F : Type} `{Scalar F}.
Import Fc.

(** C6. With the cached input [x] of shape [[a; k]] and [deltaL] of shape
    [[r; k]], [Fc.backward] takes [m = a], the first axis of [x]; the weight
    gradient is [(1/m) * deltaL x^T], the bias gradient is [(1/m)] times
    the sums of [deltaL] along its first axis, and the value returned for
    the layer input is [W^T deltaL], with no other factor. *)
Theorem Fc_backward_spec (L : Fc.t F) x deltaL a k r c :
  cache L = Some x →
  shape x = [a; k] → shape deltaL = [r; k] → shape (val (W L)) = [r; c] →
  a ≠ 0 →
  ∃ L' new_deltaL Wg bg,
    backward L deltaL = Some (L', (new_deltaL, Wg, bg))
    ∧ grad (W L') = PyArr Wg ∧ grad (b L') = PyArr bg
    ∧ val (W L') = val (W L) ∧ val (b L') = val (b L)
    ∧ shape Wg = [r; a]
    ∧ (∀ i j, item Wg [i; j]
         = smul (sdiv sone (sof_nat a))
             (ssum ((λ l, smul (item deltaL [i; l]) (item x [j; l])) <$> seq 0 k)))
    ∧ shape bg = [k]
    ∧ (∀ j, item bg [j]
         = smul (sdiv sone (sof_nat a))
             (ssum ((λ i, item deltaL [i; j]) <$> seq 0 r)))
    ∧ shape new_deltaL = [c; k]
    ∧ (∀ i j, item new_deltaL [i; j]
         = ssum ((λ l, smul (item (val (W L)) [l; i]) (item deltaL [l; j])) <$> seq 0 r)).
Proof.
  intros Hcache Hx Hd HW Ha. unfold backward. rewrite Hcache. simpl.
  rewrite Hx. simpl. destruct (Nat.eqb_spec a 0); [done|]. simpl.
  unfold np_dot, np_sum_axis0, np_T. simpl. rewrite Hd, Hx, HW. simpl.
  rewrite !bool_decide_eq_true_2 by done. simpl.
  eexists _, _, _, _. split; [done|]. simpl. repeat (split; [done|]). done.
Qed.
End fc_backward.

(** ** TanH *)

Section tanh.
Context {F : Type} `{Scalar F} `{Elementary F}.
Import TanH.

(** C8. [TanH.forward] caches [X] and returns [alpha * tanh(X)], with
    [alpha = 1.7159] by default; [TanH.backward] returns the upstream
    gradient times [1 - tanh(X)^2] for the cached [X], in which [alpha]
    does not occur: layers that differ only in [alpha] give one result. *)
Theorem TanH_spec (L : TanH.t F) (X new_deltaL : ndarray F) :
  shape new_deltaL = shape X →
  alpha (init None) = sdiv (sof_Z 17159) (sof_Z 10000)
  ∧ cache (forward L X).1 = Some X
  ∧ shape (forward L X).2 = shape X
  ∧ (∀ idx, item (forward L X).2 idx = smul (alpha L) (stanh (item X idx)))
  ∧ (∃ D, backward (forward L X).1 new_deltaL = Some D
       ∧ shape D = shape X
       ∧ ∀ idx, in_bounds (shape X) idx = true →
           item D idx
           = smul (item new_deltaL idx)
                  (ssub sone (smul (stanh (item X idx)) (stanh (item X idx)))))
  ∧ (∀ a, backward (forward {| alpha := a; cache := cache L |} X).1 new_deltaL
          = backward (forward L X).1 new_deltaL).
Proof.
  intros Hsh. split; [done|]. split; [done|]. split; [done|]. split; [done|].
  split; [|done]. unfold backward. simpl.
  match goal with |- ∃ D, np_binop _ ?A ?B = _ ∧ _ =>
    destruct (np_binop_same smul A B) as (D & -> & HD & Hitem); [done|] end.
  exists D. split; [done|]. split; [by rewrite HD|].
  intros idx Hidx. rewrite Hitem by (by rewrite Hsh). done.
Qed.
End tanh.

(** ** AdamGD *)

Lemma append_inj_r (pre a b : string) : pre +:+ a = pre +:+ b → a = b.
Proof. induction pre as [|ch pre IH]; simpl; [done|]. intros [= ?]. by apply IH. Qed.

Section adam.
Context {F : Type} `{Scalar F} `{Elementary F}.
Import AdamGD.

Lemma init_attr_params (h : store F) name key (self self' : AdamGD.t F) :
  init_attr h name key self = Some self' → params self' = params self.
Proof.
  unfold init_attr. destruct (h !! params self) as [d|]; simpl; [|done].
  destruct (d !! key); simpl; [|done]. by intros [= <-].
Qed.

Lemma update_params_fold self (h : store F) (grads : dict F) :
  update_params self h grads
  = (self1 ← for_each tracked (λ k, momentum grads ("vd" +:+ k) ("d" +:+ k)) self;
     self2 ← for_each tracked (λ k, rmsprop grads ("sd" +:+ k) ("d" +:+ k)) self1;
     h' ← for_each tracked (λ k, step self2 k ("vd" +:+ k) ("sd" +:+ k)) h;
     Some (self2, h', params self2)).
Proof.
  unfold update_params, tracked. cbv [for_each String.append].
  repeat match goal with
         | |- context [momentum ?g ?a ?b ?s] =>
             destruct (momentum g a b s); simpl; [|reflexivity]
         end.
  repeat match goal with
         | |- context [rmsprop ?g ?a ?b ?s] =>
             destruct (rmsprop g a b s); simpl; [|reflexivity]
         end.
  repeat match goal with
         | |- context [step ?s ?k ?a ?b ?h] =>
             destruct (step s k a b h); simpl; [|reflexivity]
         end.
  reflexivity.
Qed.

(** A pass that replaces the attributes [pre ++ k], for [k] in a list. *)
Lemma attr_loop (pre : string) (sf : string → AdamGD.t F → option (AdamGD.t F))
    (pw : AdamGD.t F → F → F → F) (grads : dict F) (l : list string) self :
  (∀ k self v g,
     attrs self !! (pre +:+ k) = Some v → grads !! ("d" +:+ k) = Some g →
     shape g = shape v →
     ∃ new, sf k self = Some (set_attr self (pre +:+ k) new)
       ∧ shape new = shape v
       ∧ ∀ idx, in_bounds (shape v) idx = true →
           item new idx = pw self (item v idx) (item g idx)) →
  (∀ self name a, pw (set_attr self name a) = pw self) →
  NoDup l →
  (∀ k, k ∈ l → ∃ v g, attrs self !! (pre +:+ k) = Some v
                  ∧ grads !! ("d" +:+ k) = Some g ∧ shape g = shape v) →
  ∃ self', for_each l sf self = Some self'
    ∧ same_settings self self'
    ∧ (∀ name, (∀ k, k ∈ l → name ≠ pre +:+ k) →
         attrs self' !! name = attrs self !! name)
    ∧ ∀ k, k ∈ l → ∃ v g v',
        attrs self !! (pre +:+ k) = Some v ∧ grads !! ("d" +:+ k) = Some g
        ∧ attrs self' !! (pre +:+ k) = Some v' ∧ shape v' = shape v
        ∧ ∀ idx, in_bounds (shape v) idx = true →
            item v' idx = pw self (item v idx) (item g idx).
Proof.
  intros Hsf Hpw. revert self. induction l as [|k l IH]; intros self Hnd Hl.
  - exists self. split; [done|]. split; [done|]. split; [done|].
    intros k Hk. by apply elem_of_nil in Hk.
  - apply NoDup_cons in Hnd as [Hk Hnd].
    destruct (Hl k) as (v & g & Hv & Hg & Hsh); [by left|].
    destruct (Hsf k self v g Hv Hg Hsh) as (new & Hstep & Hnew & Hitem).
    simpl. rewrite Hstep. simpl.
    destruct (IH (set_attr self (pre +:+ k) new) Hnd)
      as (self' & Hloop & Hset & Hother & Hin).
    { intros k' Hk'. destruct (Hl k') as (v' & g' & Hv' & Hg' & Hsh'); [by right|].
      exists v', g'. split; [|done]. simpl. rewrite lookup_insert_ne; [done|].
      intros Heq. apply append_inj_r in Heq. by subst. }
    exists self'. split; [done|]. split; [done|]. split; [|].
    + intros name Hname. rewrite Hother.
      * simpl. rewrite lookup_insert_ne; [done|]. intros Heq.
        by apply (Hname k); [left|].
      * intros k' Hk'. apply Hname. by right.
    + intros k' Hk'. apply elem_of_cons in Hk' as [->|Hk'].
      * exists v, g, new. repeat (split; [done|]). split; [|done].
        rewrite Hother.
        -- simpl. apply lookup_insert_eq.
        -- intros k' Hk' Heq. apply append_inj_r in Heq. by subst.
      * destruct (Hin k' Hk') as (v' & g' & v'' & Hv' & Hg' & Hv'' & Hsh' & Hit').
        exists v', g', v''. simpl in Hv'.
        rewrite lookup_insert_ne in Hv'
          by (intros Heq; apply append_inj_r in Heq; by subst).
        repeat (split; [done|]). intros idx Hidx. rewrite Hit' by done.
        by rewrite Hpw.
Qed.

Lemma momentum_step (grads : dict F) k (self : AdamGD.t F) v g :
  attrs self !! ("vd" +:+ k) = Some v → grads !! ("d" +:+ k) = Some g →
  shape g = shape v →
  ∃ new, momentum grads ("vd" +:+ k) ("d" +:+ k) self
         = Some (set_attr self ("vd" +:+ k) new)
    ∧ shape new = shape v
    ∧ ∀ idx, in_bounds (shape v) idx = true →
        item new idx = sadd (smul (beta1 self) (item v idx))
                            (smul (ssub sone (beta1 self)) (item g idx)).
Proof.
  intros Hv Hg Hsh. unfold momentum. rewrite Hv, Hg. simpl.
  match goal with |- ∃ new, np_binop _ ?A ?B ≫= _ = _ ∧ _ =>
    destruct (np_binop_same sadd A B) as (new & -> & Hnew & Hitem); [by simpl|] end.
  exists new. split; [done|]. split; [done|]. intros idx Hidx.
  by rewrite Hitem.
Qed.

Lemma rmsprop_step (grads : dict F) k (self : AdamGD.t F) v g :
  attrs self !! ("sd" +:+ k) = Some v → grads !! ("d" +:+ k) = Some g →
  shape g = shape v →
  ∃ new, rmsprop grads ("sd" +:+ k) ("d" +:+ k) self
         = Some (set_attr self ("sd" +:+ k) new)
    ∧ shape new = shape v
    ∧ ∀ idx, in_bounds (shape v) idx = true →
        item new idx = sadd (smul (beta2 self) (item v idx))
                            (smul (ssub sone (beta2 self))
                                  (smul (item g idx) (item g idx))).
Proof.
  intros Hv Hg Hsh. unfold rmsprop. rewrite Hv, Hg. simpl.
  match goal with |- ∃ new, np_binop _ ?A ?B ≫= _ = _ ∧ _ =>
    destruct (np_binop_same sadd A B) as (new & -> & Hnew & Hitem); [by simpl|] end.
  exists new. split; [done|]. split; [done|]. intros idx Hidx.
  by rewrite Hitem.
Qed.

Lemma step_one (self : AdamGD.t F) k vd sd (h : store F) (d : dict F) par v sq :
  h !! params self = Some d → d !! k = Some par →
  attrs self !! vd = Some v → attrs self !! sd = Some sq →
  shape v = shape par → shape sq = shape par →
  ∃ new, step self k vd sd h = Some (<[params self := <[k := new]> d]> h)
    ∧ shape new = shape par
    ∧ ∀ idx, in_bounds (shape par) idx = true →
        item new idx
        = ssub (item par idx)
               (sdiv (smul (lr self) (item v idx))
                     (sadd (ssqrt (item sq idx)) (epsilon self))).
Proof.
  intros Hh Hpar Hv Hsq Hshv Hshs. unfold step.
  rewrite Hh. simpl. rewrite Hpar, Hv, Hsq. simpl.
  match goal with |- context [np_binop sdiv ?A ?B] =>
    destruct (np_binop_same sdiv A B) as (quot & -> & Hq & Hqitem);
      [simpl; congruence|] end.
  simpl. simpl in Hq.
  destruct (np_binop_same ssub par quot) as (new & -> & Hnew & Hnitem);
    [congruence|].
  simpl. exists new. split; [done|]. split; [done|].
  intros idx Hidx. rewrite Hnitem by done.
  rewrite Hqitem by (simpl; by rewrite Hshv). done.
Qed.

(** The pass over the parameters: the dictionary at the address
    [params self] is updated in place, key by key. *)
Lemma step_loop (self : AdamGD.t F) (l : list string) (h : store F) (d : dict F) :
  NoDup l →
  h !! params self = Some d →
  (∀ k, k ∈ l → ∃ par v sq,
     d !! k = Some par ∧ attrs self !! ("vd" +:+ k) = Some v
     ∧ attrs self !! ("sd" +:+ k) = Some sq
     ∧ shape v = shape par ∧ shape sq = shape par) →
  ∃ h' d', for_each l (λ k, step self k ("vd" +:+ k) ("sd" +:+ k)) h = Some h'
    ∧ h' !! params self = Some d'
    ∧ (∀ a, a ≠ params self → h' !! a = h !! a)
    ∧ (∀ name, name ∉ l → d' !! name = d !! name)
    ∧ ∀ k, k ∈ l → ∃ par v sq par',
        d !! k = Some par ∧ attrs self !! ("vd" +:+ k) = Some v
        ∧ attrs self !! ("sd" +:+ k) = Some sq
        ∧ d' !! k = Some par' ∧ shape par' = shape par
        ∧ ∀ idx, in_bounds (shape par) idx = true →
            item par' idx
            = ssub (item par idx)
                   (sdiv (smul (lr self) (item v idx))
                         (sadd (ssqrt (item sq idx)) (epsilon self))).
Proof.
  revert h d. induction l as [|k l IH]; intros h d Hnd Hh Hl.
  - exists h, d. split; [done|]. split; [done|]. split; [done|]. split; [done|].
    intros k Hk. by apply elem_of_nil in Hk.
  - apply NoDup_cons in Hnd as [Hk Hnd].
    destruct (Hl k) as (par & v & sq & Hpar & Hv & Hsq & Hshv & Hshs); [by left|].
    destruct (step_one self k ("vd" +:+ k) ("sd" +:+ k) h d par v sq)
      as (new & Hstep & Hnew & Hnitem); try done.
    simpl. rewrite Hstep. simpl.
    set (d1 := <[k := new]> d). set (h1 := <[params self := d1]> h).
    destruct (IH h1 d1 Hnd) as (h' & d' & Hloop & Hh' & Hha & Hdn & Hin).
    { subst h1. apply lookup_insert_eq. }
    { intros k' Hk'.
      destruct (Hl k') as (par' & v' & sq' & Hpar' & ?); [by right|].
      exists par', v', sq'. split; [|done]. subst d1.
      rewrite lookup_insert_ne; [done|]. intros ->. done. }
    exists h', d'. split; [done|]. split; [done|]. split; [|split].
    + intros a Ha. rewrite Hha by done. subst h1. by rewrite lookup_insert_ne.
    + intros name Hname. apply not_elem_of_cons in Hname as [Hne Hname].
      rewrite Hdn by done. subst d1. by rewrite lookup_insert_ne.
    + intros k' Hk'. apply elem_of_cons in Hk' as [->|Hk'].
      * exists par, v, sq, new. repeat (split; [done|]).
        split; [|done].
        rewrite Hdn by done. subst d1. apply lookup_insert_eq.
      * destruct (Hin k' Hk') as (par' & v' & sq' & par'' & Hp' & ?).
        exists par', v', sq', par''. split; [|done]. subst d1.
        rewrite lookup_insert_ne in Hp'; [done|]. intros ->. done.
Qed.

(** C7. [update_params] replaces, for each of the ten tracked parameters,
    the first moment by [beta1 * v + (1 - beta1) * g], the second moment by
    [beta2 * s + (1 - beta2) * g^2] and the parameter by
    [p - lr * v' / (sqrt(s') + epsilon)], with the new moments and no bias
    correction; what it returns is the address of the dictionary the
    optimizer was built with, whose entries it has replaced in place. *)
Theorem AdamGD_update_params_spec (self : AdamGD.t F) (h : store F)
    (grads d : dict F) :
  h !! params self = Some d →
  (∀ k, k ∈ tracked → ∃ par v sq g,
     d !! k = Some par ∧ attrs self !! ("vd" +:+ k) = Some v
     ∧ attrs self !! ("sd" +:+ k) = Some sq ∧ grads !! ("d" +:+ k) = Some g
     ∧ shape v = shape par ∧ shape sq = shape par ∧ shape g = shape par) →
  (∀ lr b1 b2 eps a h0 self0,
     init lr b1 b2 eps a h0 = Some self0 → params self0 = a)
  ∧ ∃ self' h' d',
    update_params self h grads = Some (self', h', params self)
    ∧ same_settings self self'
    ∧ h' !! params self = Some d'
    ∧ (∀ a, a ≠ params self → h' !! a = h !! a)
    ∧ (∀ name, name ∉ tracked → d' !! name = d !! name)
    ∧ ∀ k, k ∈ tracked → ∃ par v sq g par' v' sq',
        d !! k = Some par ∧ attrs self !! ("vd" +:+ k) = Some v
        ∧ attrs self !! ("sd" +:+ k) = Some sq ∧ grads !! ("d" +:+ k) = Some g
        ∧ d' !! k = Some par' ∧ attrs self' !! ("vd" +:+ k) = Some v'
        ∧ attrs self' !! ("sd" +:+ k) = Some sq'
        ∧ shape par' = shape par ∧ shape v' = shape par ∧ shape sq' = shape par
        ∧ ∀ idx, in_bounds (shape par) idx = true →
            item v' idx = sadd (smul (beta1 self) (item v idx))
                               (smul (ssub sone (beta1 self)) (item g idx))
            ∧ item sq' idx = sadd (smul (beta2 self) (item sq idx))
                                  (smul (ssub sone (beta2 self))
                                        (smul (item g idx) (item g idx)))
            ∧ item par' idx
              = ssub (item par idx)
                     (sdiv (smul (lr self) (item v' idx))
                           (sadd (ssqrt (item sq' idx)) (epsilon self))).
Proof.
  intros Hh Hl. split.
  { intros lr0 b1 b2 eps a h0 self0 Hinit. unfold init in Hinit.
    repeat match type of Hinit with
           | (init_attr ?h ?n ?k ?s ≫= _) = Some _ =>
               let E := fresh "E" in
               destruct (init_attr h n k s) eqn:E; simpl in Hinit; [|done];
               apply init_attr_params in E
           end.
    injection Hinit as <-. simpl in *. congruence. }
  rewrite update_params_fold.
  assert (NoDup tracked) as Hnd.
  { unfold tracked.
    repeat (apply NoDup_cons; split;
      [intros Hin; repeat (apply elem_of_cons in Hin as [Hin|Hin]; [discriminate|]);
       by apply elem_of_nil in Hin|]).
    apply NoDup_nil_2. }
  destruct (attr_loop "vd" (λ k, momentum grads ("vd" +:+ k) ("d" +:+ k))
              (λ self a b, sadd (smul (beta1 self) a) (smul (ssub sone (beta1 self)) b))
              grads tracked self)
    as (self1 & -> & Hset1 & Hother1 & Hin1); [| |done| |].
  { intros k s0 v g Hv Hg Hsh. by apply momentum_step. }
  { done. }
  { intros k Hk. destruct (Hl k Hk) as (par & v & sq & g & _ & Hv & _ & Hg & Hs1 & _ & Hs3).
    exists v, g. repeat (split; [done|]). congruence. }
  rewrite bind_Some. cbv beta.
  destruct (attr_loop "sd" (λ k, rmsprop grads ("sd" +:+ k) ("d" +:+ k))
              (λ self a b, sadd (smul (beta2 self) a)
                                (smul (ssub sone (beta2 self)) (smul b b)))
              grads tracked self1)
    as (self2 & -> & Hset2 & Hother2 & Hin2); [| |done| |].
  { intros k s0 v g Hv Hg Hsh. by apply rmsprop_step. }
  { done. }
  { intros k Hk. destruct (Hl k Hk) as (par & v & sq & g & _ & _ & Hsq & Hg & _ & Hs2 & Hs3).
    exists sq, g. split; [|split; [done|congruence]].
    rewrite Hother1; [done|]. intros k' _ Heq. simpl in Heq. discriminate. }
  rewrite bind_Some. cbv beta.
  destruct Hset1 as (Hlr1 & Hb11 & Hb21 & Heps1 & Hp1).
  destruct Hset2 as (Hlr2 & Hb12 & Hb22 & Heps2 & Hp2).
  assert (∀ k, k ∈ tracked → ∃ par v sq g v' sq',
    d !! k = Some par ∧ attrs self !! ("vd" +:+ k) = Some v
    ∧ attrs self !! ("sd" +:+ k) = Some sq ∧ grads !! ("d" +:+ k) = Some g
    ∧ attrs self2 !! ("vd" +:+ k) = Some v' ∧ attrs self2 !! ("sd" +:+ k) = Some sq'
    ∧ shape v' = shape par ∧ shape sq' = shape par
    ∧ ∀ idx, in_bounds (shape par) idx = true →
        item v' idx = sadd (smul (beta1 self) (item v idx))
                           (smul (ssub sone (beta1 self)) (item g idx))
        ∧ item sq' idx = sadd (smul (beta2 self) (item sq idx))
                              (smul (ssub sone (beta2 self))
                                    (smul (item g idx) (item g idx)))) as Hmom.
  { intros k Hk.
    destruct (Hl k Hk) as (par & v & sq & g & Hpar & Hv & Hsq & Hg & Hs1 & Hs2 & Hs3).
    destruct (Hin1 k Hk) as (v0 & g0 & v' & Hv0 & Hg0 & Hv' & Hsv' & Hitv).
    destruct (Hin2 k Hk) as (sq0 & g1 & sq' & Hsq0 & Hg1 & Hsq' & Hssq' & Hitsq).
    rewrite Hother1 in Hsq0 by (intros k' _ Heq; simpl in Heq; discriminate).
    assert (v0 = v) as -> by congruence. assert (g0 = g) as -> by congruence.
    assert (g1 = g) as -> by congruence. assert (sq0 = sq) as -> by congruence.
    exists par, v, sq, g, v', sq'. repeat (split; [done|]).
    split; [|split; [done|split; [congruence|split; [congruence|]]]].
    - rewrite Hother2; [done|]. intros k' _ Heq. simpl in Heq. discriminate.
    - intros idx Hidx. split.
      + apply Hitv. by rewrite Hs1.
      + rewrite Hitsq by (by rewrite Hs2). by rewrite Hb21. }
  destruct (step_loop self2 tracked h d Hnd) as (h' & d' & -> & Hh' & Hha & Hdn & Hin3).
  { by rewrite <- Hp2, <- Hp1. }
  { intros k Hk.
    destruct (Hmom k Hk) as (par & v & sq & g & v' & sq' & Hpar & _ & _ & _ & Hv' & Hsq' & ? & ? & _).
    by exists par, v', sq'. }
  rewrite bind_Some. cbv beta. exists self2, h', d'. rewrite <- Hp2, <- Hp1.
  split; [done|]. split; [unfold same_settings; by repeat split; congruence|].
  split; [by rewrite Hp1, Hp2|]. split.
  { intros a Ha. apply Hha. congruence. }
  split; [done|].
  intros k Hk.
  destruct (Hmom k Hk) as (par & v & sq & g & v' & sq' & Hpar & Hv & Hsq & Hg & Hv' & Hsq' & Hsv' & Hssq' & Hit).
  destruct (Hin3 k Hk) as (par0 & v0 & sq0 & par' & Hpar0 & Hv0 & Hsq0 & Hpar' & Hsp' & Hitp).
  assert (par0 = par) as -> by congruence.
  assert (v0 = v') as -> by congruence. assert (sq0 = sq') as -> by congruence.
  exists par, v, sq, g, par', v', sq'. repeat (split; [done|]).
  intros idx Hidx. destruct (Hit idx Hidx) as [Hi1 Hi2].
  repeat (split; [done|]). rewrite Hitp by done. congruence.
Qed.
End adam.

(** ** The layers on concrete inputs *)


(** [Conv.forward] on the 3-by-3 input 1..9 with the filter [[1 2; 3 4]] and
    bias 10. *)
Example Conv_forward_example :
  (λ r, entries r.2) <$> Conv.forward conv_2x2 X33
  = Some ([1; 1; 2; 2], [47; 57; 77; 87]%Q).
Proof. vm_compute. reflexivity. Qed.

(** With two filters the input gradient of the first output channel is
    built from the weights of the second filter. *)
Example Conv_backward_swaps_filters :
  (λ r, entries r.2.1.1) <$> Conv.backward (Conv.set_cache conv_two_filters X11) D_first
  = Some ([1; 1; 1; 1], [7]%Q).
Proof. vm_compute. reflexivity. Qed.

(** C2 at a concrete input: one filter [[1 2; 3 4]], one output-gradient
    entry 1.  The input gradient is the filter as it is, not its 180-degree
    spatial rotation [[4 3; 2 1]]. *)
Theorem Conv_backward_kernel_not_rotated :
  (λ r, entries r.2.1.1) <$> Conv.backward (Conv.set_cache conv_2x2 X22) D11
  = Some ([1; 1; 2; 2], [1; 2; 3; 4]%Q)
  ∧ entries (rot180_spatial K22 2) = ([1; 1; 2; 2], [4; 3; 2; 1]%Q).
Proof. split; vm_compute; reflexivity. Qed.

(** C3 at a concrete input: two channels holding 1 and 3, a 1-by-1 window.
    Both channels of the output hold 2, the mean over the two channels. *)
Theorem AvgPool_forward_mixes_channels :
  (λ r, entries r.2) <$> AvgPool.forward (AvgPool.init 1 1) X_two_channels
  = Some ([1; 2; 1; 1], [2; 2]%Q).
Proof. vm_compute. reflexivity. Qed.

(** C9 at a concrete input: right after [Fc(2, 3)] is built, the gradients
    are the integer 0, of empty shape, next to values of shape [[2; 3]] and
    [[2; 1]]; after a forward and a backward call on four columns the bias
    gradient has shape [[4]]. *)
Theorem Fc_grad_shapes_differ :
  param_shapes fc_2x3 = [([2; 3], []); ([2; 1], [])]
  ∧ (λ r, param_shapes r.1) <$> (r ← Fc.forward fc_2x3 x34; Fc.backward r.1 delta24)
    = Some [([2; 3], [2; 3]); ([2; 1], [4])].
Proof. split; vm_compute; reflexivity. Qed.



(** ** The theorems at concrete inputs *)



Lemma Conv_backward_grads_witness :
  ∃ L' dX Wg bg, Conv.backward (Conv.set_cache conv_2x2 X22) D11 = Some (L', (dX, Wg, bg))
    ∧ grad (Conv.W L') = Wg ∧ grad (Conv.b L') = bg.
Proof.
  destruct (Conv_backward_grads (Conv.set_cache conv_2x2 X22) X22 D11 1 1 2 2 1 1 1)
    as (L' & dX & Wg & bg & Hback & HW & Hb & _);
    [reflexivity | reflexivity | reflexivity | reflexivity | reflexivity | reflexivity
    | lia | intros h Hh; simpl; lia | intros w Hw; simpl; lia |].
  exists L', dX, Wg, bg. split; [exact Hback|]. split; [exact HW|exact Hb].
Defined.


Lemma Fc_backward_spec_witness :
  ∃ L' new_deltaL Wg bg,
    Fc.backward fc_2x3_cached delta24 = Some (L', (new_deltaL, Wg, bg))
    ∧ shape Wg = [2; 3] ∧ shape bg = [4] ∧ shape new_deltaL = [3; 4].
Proof.
  destruct (Fc_backward_spec fc_2x3_cached x34 delta24 3 4 2 3)
    as (L' & nd & Wg & bg & Hback & _ & _ & _ & _ & HWg & _ & Hbg & _ & Hnd & _);
    [reflexivity | reflexivity | reflexivity | reflexivity | lia |].
  exists L', nd, Wg, bg. split; [exact Hback|].
  split; [exact HWg|]. split; [exact Hbg|exact Hnd].
Defined.

Lemma TanH_spec_witness :
  TanH.alpha (TanH.init None) = 1.7159%R
  ∧ ∃ D, TanH.backward (TanH.forward (TanH.init None) (r1 0%R)).1 (r1 1%R) = Some D
      ∧ shape D = [1].
Proof.
  destruct (TanH_spec (TanH.init None) (r1 0%R) (r1 1%R))
    as (Halpha & _ & _ & _ & (D & Hback & Hsh & _) & _); [reflexivity|].
  split.
  - rewrite Halpha. simpl. lra.
  - exists D. split; [exact Hback|exact Hsh].
Defined.

Lemma AdamGD_update_params_spec_witness :
  ∃ self' h', AdamGD.update_params adam adam_store adam_grads = Some (self', h', 7).
Proof.
  destruct (AdamGD_update_params_spec adam adam_store adam_grads adam_params)
    as [_ (self' & h' & d' & Hupd & _)].
  - reflexivity.
  - intros k Hk. exists (r1 1%R), (r1 0%R), (r1 0%R), (r1 2%R).
    unfold tracked in Hk.
    repeat (apply elem_of_cons in Hk as [->|Hk];
            [repeat split; vm_compute; reflexivity|]).
    apply elem_of_nil in Hk. destruct Hk.
  - exists self', h'. exact Hupd.
Defined.

(** * Further properties *)

(** ** Conv over its lifetime *)

Section conv_lifetime.
Context {F : Type} `{Scalar F}.
Import Conv.

Lemma forward_state (L L' : Conv.t F) X out :
  forward L X = Some (L', out) → L' = set_cache L X.
Proof.
  unfold forward. intros Hfwd.
  destruct (unpack4 (shape X)) as [[[[m C] H0] Wd]|]; simpl in Hfwd; [|done].
  destruct (out_size H0 _ _ _); simpl in Hfwd; [|done].
  destruct (out_size Wd _ _ _); simpl in Hfwd; [|done].
  destruct (np_zeros _); simpl in Hfwd; [|done].
  destruct (for_range m _ _); simpl in Hfwd; [|done].
  by injection Hfwd as <- _.
Qed.

Lemma backward_state (L L' : Conv.t F) dout dX Wg bg :
  backward L dout = Some (L', (dX, Wg, bg)) →
  L' = set_grads L Wg bg.
Proof.
  unfold backward. intros Hback.
  destruct (cache L) as [X|]; simpl in Hback; [|done].
  destruct (unpack4 (shape X)) as [[[[mX C] H0] Wd]|]; simpl in Hback; [|done].
  destruct (unpack4 (shape dout)) as [[[[m nC] nH] nW]|]; simpl in Hback; [|done].
  destruct (np_rot90 (val (W L))) as [r1|]; simpl in Hback; [|done].
  destruct (np_rot90 r1) as [W_rot|]; simpl in Hback; [|done].
  destruct (for_range m _ _) as [[Wg' dX']|]; simpl in Hback; [|done].
  destruct (for_range (n_F L) _ _) as [bg'|]; simpl in Hback; [|done].
  by injection Hback as <- _ <- <-.
Qed.

(** X1. From construction on and through every sequence of [forward] and
    [backward] calls that return, a [Conv] layer keeps its settings and the
    values of its weights and biases, and the gradient of each parameter has
    the shape of its value. *)
Theorem Conv_lifetime_invariant nF fs nC st pd (W0 b0 : ndarray F) (L : Conv.t F) :
  shape W0 = [nF; nC; fs; fs] → shape b0 = [nF; 1] →
  conv_reach (init nF fs nC st pd W0 b0) L →
  n_F L = nF ∧ f L = fs ∧ n_C L = nC ∧ s L = st ∧ p L = pd
  ∧ val (W L) = W0 ∧ val (b L) = b0
  ∧ shape (grad (W L)) = shape W0 ∧ shape (grad (b L)) = shape b0.
Proof.
  intros HW Hb Hreach.
  induction Hreach as [|L X L' out _ IH Hfwd|L dout L' [[dX Wg] bg] _ IH Hback].
  - simpl. by rewrite HW, Hb.
  - apply forward_state in Hfwd as ->. exact IH.
  - destruct IH as (? & ? & ? & ? & ? & HvW & Hvb & HgW & Hgb).
    assert (conv_shapes_agree L) as Hagree by (split; congruence).
    pose proof (Conv_backward_shapes _ _ _ _ Hback Hagree) as [HW' Hb'].
    apply backward_state in Hback as ->. simpl in *.
    repeat (split; [done|]). split; congruence.
Qed.

(** X2. With no padding, a stride of at least 1 and filters no larger than
    the input, [backward] called after [forward] on an upstream gradient of
    the shape of the forward output returns, and the input gradient has the
    shape of the input. *)
Theorem Conv_forward_then_backward (L L' : Conv.t F) X out dout m C H0 Wd :
  shape X = [m; C; H0; Wd] →
  shape (val (W L)) = [n_F L; C; f L; f L] →
  shape (grad (W L)) = [n_F L; C; f L; f L] →
  shape (grad (b L)) = [n_F L; 1] →
  p L = 0 → 1 ≤ s L → f L ≤ H0 → f L ≤ Wd →
  forward L X = Some (L', out) → shape dout = shape out →
  ∃ L'' dX Wg bg, backward L' dout = Some (L'', (dX, Wg, bg))
    ∧ shape dX = shape X
    ∧ shape Wg = shape (val (W L)) ∧ shape bg = shape (grad (b L)).
Proof.
  intros HX HWv HWg Hbg Hp Hs HfH HfW Hfwd Hdout.
  pose proof (Conv_forward_shape L X m C H0 Wd L' out HX Hs) as Hout.
  rewrite Hp in Hout. rewrite Hout in Hdout by (done || lia).
  apply forward_state in Hfwd as ->.
  destruct (backward_ok (set_cache L X) X dout m C H0 Wd m
              ((H0 + 2 * 0 - f L) / s L + 1) ((Wd + 2 * 0 - f L) / s L + 1))
    as (dX & Wg & bg & Hback & HdX & HWgs & Hbgs & _); try done.
  - intros h Hh. apply (fits_window H0 0); [by apply fits_no_padding|done].
  - intros w Hw. apply (fits_window Wd 0); [by apply fits_no_padding|done].
  - exists (set_grads (set_cache L X) Wg bg), dX, Wg, bg.
    split; [done|]. split; [done|]. simpl in *. split; congruence.
Qed.

(** X3. [backward] changes the two gradients and nothing else: the settings,
    the values and the cache stay, so a later [forward] computes what it
    computed before. *)
Theorem Conv_backward_keeps_forward (L L' : Conv.t F) dout r :
  backward L dout = Some (L', r) →
  n_F L' = n_F L ∧ f L' = f L ∧ n_C L' = n_C L ∧ s L' = s L ∧ p L' = p L
  ∧ val (W L') = val (W L) ∧ val (b L') = val (b L) ∧ cache L' = cache L
  ∧ ∀ X, snd <$> forward L' X = snd <$> forward L X.
Proof.
  destruct r as [[dX Wg] bg]. intros Hback.
  apply backward_state in Hback as ->. repeat (split; [done|]).
  intros X. unfold forward. simpl.
  destruct (unpack4 (shape X)) as [[[[m C] H0] Wd]|]; simpl; [|done].
  destruct (out_size H0 _ _ _); simpl; [|done].
  destruct (out_size Wd _ _ _); simpl; [|done].
  destruct (np_zeros _) as [out0|]; simpl; [|done].
  match goal with |- snd <$> (?A ≫= _) = snd <$> (?B ≫= _) => change A with B end.
  by destruct (for_range m _ out0).
Qed.
End conv_lifetime.

(** ** AvgPool at the edges and in sequence *)



Section avgpool_edges.
Context {F : Type} `{Scalar F}.
Import AvgPool.


Lemma pool_forward_state (L L' : AvgPool.t F) X out :
  forward L X = Some (L', out) → L' = {| f := f L; s := s L; cache := Some X |}.
Proof.
  unfold forward. intros Hfwd.
  destruct (unpack4 (shape X)) as [[[[m C] H0] Wd]|]; simpl in Hfwd; [|done].
  destruct (out_size H0 _ _ _); simpl in Hfwd; [|done].
  destruct (out_size Wd _ _ _); simpl in Hfwd; [|done].
  destruct (np_zeros _); simpl in Hfwd; [|done].
  destruct (for_range m _ _); simpl in Hfwd; [|done].
  by injection Hfwd as <- _.
Qed.


(** X7. With a stride of at least 1 and a filter that fits the input,
    [backward] called after [forward] on an upstream gradient of the shape
    of the forward output returns an array of the shape of the input: the
    input plus, in every cell, the shares of the windows that contain it. *)
Theorem AvgPool_forward_then_backward (L L' : AvgPool.t F) X out dout m C H0 Wd :
  shape X = [m; C; H0; Wd] → 1 ≤ s L → f L ≤ H0 → f L ≤ Wd →
  forward L X = Some (L', out) → shape dout = shape out →
  ∃ dX, backward L' dout = Some dX ∧ shape dX = shape X
    ∧ ∀ i c y x, item dX [i; c; y; x]
        = foldl sadd (item X [i; c; y; x])
            (omap (share (f L) (s L) dout ((H0 - f L) / s L + 1) ((Wd - f L) / s L + 1)
                     i c y x)
                  (indices [m; C; (H0 - f L) / s L + 1; (Wd - f L) / s L + 1])).
Proof.
  intros HX Hs HfH HfW Hfwd Hdout.
  destruct (AvgPool_forward_all_channels L X m C H0 Wd HX Hs HfH HfW)
    as (L1 & out1 & Hfwd1 & _ & Hout1 & _).
  rewrite Hfwd in Hfwd1. injection Hfwd1 as <- <-.
  apply pool_forward_state in Hfwd as ->. rewrite Hout1 in Hdout.
  destruct (backward_loop {| f := f L; s := s L; cache := Some X |} X dout
              m C H0 Wd m C ((H0 - f L) / s L + 1) ((Wd - f L) / s L + 1))
    as (dX & Hback & Hsh & Hitem); try done.
  - intros h Hh. simpl. apply (fits_window H0 0); [by apply fits_no_padding|].
    by replace (H0 + 2 * 0 - f L) with (H0 - f L) by lia.
  - intros w Hw. simpl. apply (fits_window Wd 0); [by apply fits_no_padding|].
    by replace (Wd + 2 * 0 - f L) with (Wd - f L) by lia.
  - exists dX. split; [done|]. split; [done|]. exact Hitem.
Qed.
End avgpool_edges.

(** ** Fc: forward, and forward then backward *)

Section fc_more.
Context {F : Type} `{Scalar F}.
Import Fc.

Lemma fc_forward_ok (L : Fc.t F) (x : ndarray F) r c k :
  shape (val (W L)) = [r; c] → shape (val (b L)) = [r; 1] → shape x = [c; k] →
  ∃ L' A, forward L x = Some (L', A)
    ∧ cache L' = Some x ∧ W L' = W L ∧ b L' = b L
    ∧ shape A = [r; k]
    ∧ ∀ i j, i < r → j < k →
        item A [i; j]
        = sadd (ssum ((λ l, smul (item (val (W L)) [i; l]) (item x [l; j])) <$> seq 0 c))
               (item (val (b L)) [i; 0]).
Proof.
  intros HW Hb Hx. unfold forward, np_dot, np_binop. simpl. rewrite HW, Hx, Hb. simpl.
  rewrite bool_decide_eq_true_2 by done. simpl.
  unfold bshape. simpl. rewrite Nat.eqb_refl. simpl.
  assert (∃ sh, (if k =? 1 then Some [k; r]
                 else if k =? 1 then Some [1; r]
                 else Some [k; r]) = Some sh ∧ reverse sh = [r; k])
    as (sh & -> & Hsh).
  { exists [k; r]. split; [by destruct (k =? 1)|done]. }
  simpl. eexists _, _. split; [done|]. simpl. repeat (split; [done|]).
  intros i j Hi Hj. unfold bidx. simpl.
  by rewrite !bidx_axis by done.
Qed.

(** X8. On weights of shape [[r; c]], a bias of shape [[r; 1]] and an input
    of shape [[c; k]], [Fc.forward] caches the input and returns the
    [r]-by-[k] array of the products of rows with columns plus the bias of
    the row; on an input whose first axis is not [c] it raises. *)
Theorem Fc_forward_spec (L : Fc.t F) (x : ndarray F) r c c' k :
  shape (val (W L)) = [r; c] → shape (val (b L)) = [r; 1] → shape x = [c'; k] →
  (c' = c →
   ∃ L' A, forward L x = Some (L', A)
     ∧ cache L' = Some x ∧ W L' = W L ∧ b L' = b L
     ∧ shape A = [r; k]
     ∧ ∀ i j, i < r → j < k →
         item A [i; j]
         = sadd (ssum ((λ l, smul (item (val (W L)) [i; l]) (item x [l; j])) <$> seq 0 c))
                (item (val (b L)) [i; 0]))
  ∧ (c' ≠ c → forward L x = None).
Proof.
  intros HW Hb Hx. split.
  - intros ->. by apply fc_forward_ok.
  - intros Hne. unfold forward, np_dot. simpl. rewrite HW, Hx. simpl.
    rewrite bool_decide_eq_false_2; [done|]. intros [= ?]. congruence.
Qed.

(** X9. After [forward] on an input of shape [[c; k]], [backward] on an
    upstream gradient of the shape of the forward output returns when
    [c ≠ 0] and raises when [c = 0], the divisor [m] being the first axis
    of the cached input.  The weight gradient then has the shape of the
    weights and the returned gradient the shape of the input, but the bias
    gradient has one axis, of length [k], never the shape [[r; 1]] of the
    bias. *)
Theorem Fc_forward_then_backward (L L' : Fc.t F) (x A deltaL : ndarray F) r c k :
  shape (val (W L)) = [r; c] → shape (val (b L)) = [r; 1] → shape x = [c; k] →
  forward L x = Some (L', A) → shape deltaL = shape A →
  (c = 0 → backward L' deltaL = None)
  ∧ (c ≠ 0 →
     ∃ L'' new_deltaL Wg bg,
       backward L' deltaL = Some (L'', (new_deltaL, Wg, bg))
       ∧ shape Wg = shape (val (W L))
       ∧ shape new_deltaL = shape x
       ∧ shape bg = [k] ∧ shape bg ≠ shape (val (b L))).
Proof.
  intros HW Hb Hx Hfwd Hd.
  destruct (fc_forward_ok L x r c k HW Hb Hx)
    as (L1 & A1 & Hfwd1 & Hcache & HW1 & Hb1 & HA & _).
  rewrite Hfwd in Hfwd1. injection Hfwd1 as <- <-. rewrite HA in Hd.
  split.
  - intros ->. unfold backward. rewrite Hcache. simpl. by rewrite Hx.
  - intros Hc. unfold backward. rewrite Hcache. simpl. rewrite Hx. simpl.
    destruct (Nat.eqb_spec c 0); [done|]. simpl.
    unfold np_dot, np_sum_axis0, np_T. simpl. rewrite Hd, Hx, HW1, HW. simpl.
    rewrite !bool_decide_eq_true_2 by done. simpl.
    eexists _, _, _, _. split; [done|]. simpl. repeat (split; [done|]).
    rewrite Hb. by intros [= ?].
Qed.
End fc_more.

(** ** AdamGD: construction, missing keys, repeated steps *)

Section adam_more.
Context {F : Type} `{Scalar F} `{Elementary F}.
Import AdamGD.

Lemma update_params_ok (self : AdamGD.t F) (h : store F)
    (grads d : dict F) :
  h !! params self = Some d →
  (∀ k, k ∈ tracked → ∃ par v sq g,
     d !! k = Some par ∧ attrs self !! ("vd" +:+ k) = Some v
     ∧ attrs self !! ("sd" +:+ k) = Some sq ∧ grads !! ("d" +:+ k) = Some g
     ∧ shape v = shape par ∧ shape sq = shape par ∧ shape g = shape par) →
  ∃ self' h' d',
    update_params self h grads = Some (self', h', params self)
    ∧ same_settings self self'
    ∧ h' !! params self = Some d'
    ∧ (∀ a, a ≠ params self → h' !! a = h !! a)
    ∧ (∀ name, name ∉ tracked → d' !! name = d !! name)
    ∧ ∀ k, k ∈ tracked → ∃ par v sq g par' v' sq',
        d !! k = Some par ∧ attrs self !! ("vd" +:+ k) = Some v
        ∧ attrs self !! ("sd" +:+ k) = Some sq ∧ grads !! ("d" +:+ k) = Some g
        ∧ d' !! k = Some par' ∧ attrs self' !! ("vd" +:+ k) = Some v'
        ∧ attrs self' !! ("sd" +:+ k) = Some sq'
        ∧ shape par' = shape par ∧ shape v' = shape par ∧ shape sq' = shape par
        ∧ ∀ idx, in_bounds (shape par) idx = true →
            item v' idx = sadd (smul (beta1 self) (item v idx))
                               (smul (ssub sone (beta1 self)) (item g idx))
            ∧ item sq' idx = sadd (smul (beta2 self) (item sq idx))
                                  (smul (ssub sone (beta2 self))
                                        (smul (item g idx) (item g idx)))
            ∧ item par' idx
              = ssub (item par idx)
                     (sdiv (smul (lr self) (item v' idx))
                           (sadd (ssqrt (item sq' idx)) (epsilon self))).
Proof.
  intros Hh Hl.
  rewrite update_params_fold.
  assert (NoDup tracked) as Hnd.
  { unfold tracked.
    repeat (apply NoDup_cons; split;
      [intros Hin; repeat (apply elem_of_cons in Hin as [Hin|Hin]; [discriminate|]);
       by apply elem_of_nil in Hin|]).
    apply NoDup_nil_2. }
  destruct (attr_loop "vd" (λ k, momentum grads ("vd" +:+ k) ("d" +:+ k))
              (λ self a b, sadd (smul (beta1 self) a) (smul (ssub sone (beta1 self)) b))
              grads tracked self)
    as (self1 & -> & Hset1 & Hother1 & Hin1); [| |done| |].
  { intros k s0 v g Hv Hg Hsh. by apply momentum_step. }
  { done. }
  { intros k Hk. destruct (Hl k Hk) as (par & v & sq & g & _ & Hv & _ & Hg & Hs1 & _ & Hs3).
    exists v, g. repeat (split; [done|]). congruence. }
  rewrite bind_Some. cbv beta.
  destruct (attr_loop "sd" (λ k, rmsprop grads ("sd" +:+ k) ("d" +:+ k))
              (λ self a b, sadd (smul (beta2 self) a)
                                (smul (ssub sone (beta2 self)) (smul b b)))
              grads tracked self1)
    as (self2 & -> & Hset2 & Hother2 & Hin2); [| |done| |].
  { intros k s0 v g Hv Hg Hsh. by apply rmsprop_step. }
  { done. }
  { intros k Hk. destruct (Hl k Hk) as (par & v & sq & g & _ & _ & Hsq & Hg & _ & Hs2 & Hs3).
    exists sq, g. split; [|split; [done|congruence]].
    rewrite Hother1; [done|]. intros k' _ Heq. simpl in Heq. discriminate. }
  rewrite bind_Some. cbv beta.
  destruct Hset1 as (Hlr1 & Hb11 & Hb21 & Heps1 & Hp1).
  destruct Hset2 as (Hlr2 & Hb12 & Hb22 & Heps2 & Hp2).
  assert (∀ k, k ∈ tracked → ∃ par v sq g v' sq',
    d !! k = Some par ∧ attrs self !! ("vd" +:+ k) = Some v
    ∧ attrs self !! ("sd" +:+ k) = Some sq ∧ grads !! ("d" +:+ k) = Some g
    ∧ attrs self2 !! ("vd" +:+ k) = Some v' ∧ attrs self2 !! ("sd" +:+ k) = Some sq'
    ∧ shape v' = shape par ∧ shape sq' = shape par
    ∧ ∀ idx, in_bounds (shape par) idx = true →
        item v' idx = sadd (smul (beta1 self) (item v idx))
                           (smul (ssub sone (beta1 self)) (item g idx))
        ∧ item sq' idx = sadd (smul (beta2 self) (item sq idx))
                              (smul (ssub sone (beta2 self))
                                    (smul (item g idx) (item g idx)))) as Hmom.
  { intros k Hk.
    destruct (Hl k Hk) as (par & v & sq & g & Hpar & Hv & Hsq & Hg & Hs1 & Hs2 & Hs3).
    destruct (Hin1 k Hk) as (v0 & g0 & v' & Hv0 & Hg0 & Hv' & Hsv' & Hitv).
    destruct (Hin2 k Hk) as (sq0 & g1 & sq' & Hsq0 & Hg1 & Hsq' & Hssq' & Hitsq).
    rewrite Hother1 in Hsq0 by (intros k' _ Heq; simpl in Heq; discriminate).
    assert (v0 = v) as -> by congruence. assert (g0 = g) as -> by congruence.
    assert (g1 = g) as -> by congruence. assert (sq0 = sq) as -> by congruence.
    exists par, v, sq, g, v', sq'. repeat (split; [done|]).
    split; [|split; [done|split; [congruence|split; [congruence|]]]].
    - rewrite Hother2; [done|]. intros k' _ Heq. simpl in Heq. discriminate.
    - intros idx Hidx. split.
      + apply Hitv. by rewrite Hs1.
      + rewrite Hitsq by (by rewrite Hs2). by rewrite Hb21. }
  destruct (step_loop self2 tracked h d Hnd) as (h' & d' & -> & Hh' & Hha & Hdn & Hin3).
  { by rewrite <- Hp2, <- Hp1. }
  { intros k Hk.
    destruct (Hmom k Hk) as (par & v & sq & g & v' & sq' & Hpar & _ & _ & _ & Hv' & Hsq' & ? & ? & _).
    by exists par, v', sq'. }
  rewrite bind_Some. cbv beta. exists self2, h', d'. rewrite <- Hp2, <- Hp1.
  split; [done|]. split; [unfold same_settings; by repeat split; congruence|].
  split; [by rewrite Hp1, Hp2|]. split.
  { intros a Ha. apply Hha. congruence. }
  split; [done|].
  intros k Hk.
  destruct (Hmom k Hk) as (par & v & sq & g & v' & sq' & Hpar & Hv & Hsq & Hg & Hv' & Hsq' & Hsv' & Hssq' & Hit).
  destruct (Hin3 k Hk) as (par0 & v0 & sq0 & par' & Hpar0 & Hv0 & Hsq0 & Hpar' & Hsp' & Hitp).
  assert (par0 = par) as -> by congruence.
  assert (v0 = v') as -> by congruence. assert (sq0 = sq') as -> by congruence.
  exists par, v, sq, g, par', v', sq'. repeat (split; [done|]).
  intros idx Hidx. destruct (Hit idx Hidx) as [Hi1 Hi2].
  repeat (split; [done|]). rewrite Hitp by done. congruence.
Qed.

Lemma tracked_cases (P : string → Prop) :
  P "W1" → P "W2" → P "W3" → P "W4" → P "W5" →
  P "b1" → P "b2" → P "b3" → P "b4" → P "b5" →
  ∀ k, k ∈ tracked → P k.
Proof.
  intros ? ? ? ? ? ? ? ? ? ? k Hk. unfold tracked in Hk.
  repeat (apply elem_of_cons in Hk as [->|Hk]; [done|]).
  by apply elem_of_nil in Hk.
Qed.

Lemma init_ok lr0 b1 b2 eps a (h : store F) (d : dict F) :
  h !! a = Some d →
  (∀ k, k ∈ tracked → is_Some (d !! k)) →
  ∃ self, init lr0 b1 b2 eps a h = Some self
    ∧ lr self = lr0 ∧ beta1 self = b1 ∧ beta2 self = b2 ∧ epsilon self = eps
    ∧ params self = a
    ∧ ∀ k par, k ∈ tracked → d !! k = Some par →
        attrs self !! ("vd" +:+ k) = Some (zeros (shape par))
        ∧ attrs self !! ("sd" +:+ k) = Some (zeros (shape par)).
Proof.
  intros Hh Hall.
  destruct (Hall "W1") as [W1 HW1]; [set_solver|].
  destruct (Hall "W2") as [W2 HW2]; [set_solver|].
  destruct (Hall "W3") as [W3 HW3]; [set_solver|].
  destruct (Hall "W4") as [W4 HW4]; [set_solver|].
  destruct (Hall "W5") as [W5 HW5]; [set_solver|].
  destruct (Hall "b1") as [b1' Hb1]; [set_solver|].
  destruct (Hall "b2") as [b2' Hb2]; [set_solver|].
  destruct (Hall "b3") as [b3' Hb3]; [set_solver|].
  destruct (Hall "b4") as [b4' Hb4]; [set_solver|].
  destruct (Hall "b5") as [b5' Hb5]; [set_solver|].
  unfold init, init_attr. simpl.
  repeat (progress (rewrite ?Hh, ?HW1, ?HW2, ?HW3, ?HW4, ?HW5,
                      ?Hb1, ?Hb2, ?Hb3, ?Hb4, ?Hb5; simpl)).
  eexists. split; [done|]. simpl. repeat (split; [done|]).
  intros k par Hk Hpar. unfold tracked in Hk.
  repeat (apply elem_of_cons in Hk as [->|Hk];
    [cbv [String.append]; split; by simplify_map_eq|]).
  by apply elem_of_nil in Hk.
Qed.

Lemma init_missing lr0 b1 b2 eps a (h : store F) (d : dict F) k :
  h !! a = Some d → k ∈ tracked → d !! k = None →
  init lr0 b1 b2 eps a h = None.
Proof.
  intros Hh Hk Hnone. unfold tracked in Hk.
  repeat (apply elem_of_cons in Hk as [->|Hk];
    [unfold init, init_attr; simpl;
     repeat first
       [ done
       | progress (rewrite ?Hh, ?Hnone; simpl)
       | match goal with
         | |- context [d !! ?key] => destruct (d !! key); simpl
         end ]|]).
  by apply elem_of_nil in Hk.
Qed.

(** X10. [AdamGD.__init__] on a dictionary that holds the ten tracked
    parameters keeps the settings and the address it is given and creates,
    for each parameter, a first and a second moment of zeros of the
    parameter's shape; if any of the ten keys is missing it raises. *)
Theorem AdamGD_init_spec lr0 b1 b2 eps a (h : store F) (d : dict F) :
  h !! a = Some d →
  ((∀ k, k ∈ tracked → is_Some (d !! k)) →
   ∃ self, init lr0 b1 b2 eps a h = Some self
     ∧ lr self = lr0 ∧ beta1 self = b1 ∧ beta2 self = b2 ∧ epsilon self = eps
     ∧ params self = a
     ∧ ∀ k par, k ∈ tracked → d !! k = Some par →
         attrs self !! ("vd" +:+ k) = Some (zeros (shape par))
         ∧ attrs self !! ("sd" +:+ k) = Some (zeros (shape par)))
  ∧ (∀ k, k ∈ tracked → d !! k = None → init lr0 b1 b2 eps a h = None).
Proof.
  intros Hh. split.
  - by apply init_ok.
  - intros k Hk Hnone. by apply (init_missing _ _ _ _ _ _ d k).
Qed.

(** X11. [update_params] raises when the gradient of one of the ten tracked
    parameters is missing from the mapping it is given. *)
Theorem AdamGD_update_missing_gradient (self : AdamGD.t F) (h : store F)
    (grads : dict F) k :
  k ∈ tracked → grads !! ("d" +:+ k) = None →
  update_params self h grads = None.
Proof.
  intros Hk Hnone. rewrite update_params_fold.
  rewrite (for_each_fails _ _ k); [done|done|].
  intros st. unfold momentum.
  destruct (attrs st !! _); simpl; [|done]. by rewrite Hnone.
Qed.

Lemma init_ready lr0 b1 b2 eps a (h : store F) self :
  init lr0 b1 b2 eps a h = Some self →
  ∃ d, h !! a = Some d
    ∧ lr self = lr0 ∧ beta1 self = b1 ∧ beta2 self = b2 ∧ epsilon self = eps
    ∧ params self = a
    ∧ ∀ k, k ∈ tracked → ∃ par,
        d !! k = Some par
        ∧ attrs self !! ("vd" +:+ k) = Some (zeros (shape par))
        ∧ attrs self !! ("sd" +:+ k) = Some (zeros (shape par)).
Proof.
  intros Hinit.
  destruct (h !! a) as [d|] eqn:Hh.
  2:{ unfold init, init_attr in Hinit. simpl in Hinit. by rewrite Hh in Hinit. }
  assert (∀ k, k ∈ tracked → is_Some (d !! k)) as Hall.
  { intros k Hk. destruct (d !! k) eqn:Hdk; [done|].
    by rewrite (init_missing _ _ _ _ _ _ d k) in Hinit. }
  destruct (init_ok lr0 b1 b2 eps a h d Hh Hall) as (self0 & Hinit0 & Hrest).
  rewrite Hinit in Hinit0. injection Hinit0 as <-.
  exists d. split; [done|].
  destruct Hrest as (? & ? & ? & ? & ? & Hattrs). repeat (split; [done|]).
  intros k Hk. destruct (Hall k Hk) as [par Hpar]. exists par.
  split; [done|]. by apply Hattrs.
Qed.

(** X12. An optimizer that [__init__] returns is ready; and a step of a
    ready optimizer with gradients that fit returns the address it holds
    and leaves the optimizer ready, for every mapping of gradients that fit:
    the steps can go on. *)
Theorem AdamGD_steps_go_on :
  (∀ lr0 b1 b2 eps a (h : store F) self,
     init lr0 b1 b2 eps a h = Some self → adam_ready self h ∧ params self = a)
  ∧ ∀ (self : AdamGD.t F) (h : store F) (grads : dict F),
      adam_ready self h → grads_fit h (params self) grads →
      ∃ self' h', update_params self h grads = Some (self', h', params self)
        ∧ params self' = params self
        ∧ adam_ready self' h'
        ∧ ∀ grads', grads_fit h (params self) grads' →
                    grads_fit h' (params self') grads'.
Proof.
  split.
  - intros lr0 b1 b2 eps a h self Hinit.
    destruct (init_ready _ _ _ _ _ _ _ Hinit)
      as (d & Hh & _ & _ & _ & _ & Hp & Hattrs).
    split; [|done]. exists d. rewrite Hp. split; [done|].
    intros k Hk. destruct (Hattrs k Hk) as (par & Hpar & Hv & Hsq).
    by exists par, (zeros (shape par)), (zeros (shape par)).
  - intros self h grads (d & Hh & Hst) (d0 & Hh0 & Hgr).
    assert (d0 = d) as -> by congruence.
    destruct (update_params_ok self h grads d Hh)
      as (self' & h' & d' & Hupd & Hset & Hh' & _ & _ & Hres).
    { intros k Hk. destruct (Hst k Hk) as (par & v & sq & Hpar & Hv & Hsq & ? & ?).
      destruct (Hgr k Hk) as (par0 & g & Hpar0 & Hg & ?).
      assert (par0 = par) as -> by congruence. by exists par, v, sq, g. }
    destruct Hset as (_ & _ & _ & _ & Hp).
    exists self', h'. split; [done|]. split; [done|]. split.
    + exists d'. rewrite <- Hp. split; [done|]. intros k Hk.
      destruct (Hres k Hk)
        as (par & v & sq & g & par' & v' & sq' & _ & _ & _ & _ & Hp' & Hv' & Hsq'
            & Hs1 & Hs2 & Hs3 & _).
      exists par', v', sq'. repeat (split; [done|]). split; congruence.
    + intros grads' (d1 & Hh1 & Hgr'). assert (d1 = d) as -> by congruence.
      exists d'. rewrite <- Hp. split; [done|]. intros k Hk.
      destruct (Hres k Hk)
        as (par & v & sq & g & par' & v' & sq' & Hpar & _ & _ & _ & Hp' & _ & _
            & Hs1 & _).
      destruct (Hgr' k Hk) as (par0 & g' & Hpar0 & Hg' & ?).
      assert (par0 = par) as -> by congruence.
      exists par', g'. repeat (split; [done|]). congruence.
Qed.

(** X13. The first step after [__init__], the moments being zero: where
    multiplying by zero gives zero and adding to zero changes nothing, every
    tracked parameter becomes
    [p - lr * ((1 - beta1) * g) / (sqrt((1 - beta2) * g^2) + epsilon)]. *)
Theorem AdamGD_first_step lr0 b1 b2 eps a (h : store F) (grads : dict F) self :
  (∀ x : F, smul x szero = szero) → (∀ y : F, sadd szero y = y) →
  init lr0 b1 b2 eps a h = Some self → grads_fit h a grads →
  ∃ self' h' d d', update_params self h grads = Some (self', h', a)
    ∧ h !! a = Some d ∧ h' !! a = Some d'
    ∧ ∀ k, k ∈ tracked → ∃ par g par',
        d !! k = Some par ∧ grads !! ("d" +:+ k) = Some g ∧ d' !! k = Some par'
        ∧ shape par' = shape par
        ∧ ∀ idx, in_bounds (shape par) idx = true →
            item par' idx
            = ssub (item par idx)
                (sdiv (smul lr0 (smul (ssub sone b1) (item g idx)))
                      (sadd (ssqrt (smul (ssub sone b2)
                                         (smul (item g idx) (item g idx))))
                            eps)).
Proof.
  intros Hmul Hadd Hinit (d0 & Hh0 & Hgr).
  destruct (init_ready _ _ _ _ _ _ _ Hinit)
    as (d & Hh & Hlr & Hb1 & Hb2 & Heps & Hp & Hattrs).
  assert (d0 = d) as -> by congruence.
  destruct (update_params_ok self h grads d)
    as (self' & h' & d' & Hupd & _ & Hh' & _ & _ & Hres).
  { by rewrite Hp. }
  { intros k Hk. destruct (Hattrs k Hk) as (par & Hpar & Hv & Hsq).
    destruct (Hgr k Hk) as (par0 & g & Hpar0 & Hg & ?).
    assert (par0 = par) as -> by congruence.
    by exists par, (zeros (shape par)), (zeros (shape par)), g. }
  rewrite Hp in Hupd, Hh'. exists self', h', d, d'. repeat (split; [done|]).
  intros k Hk. destruct (Hattrs k Hk) as (par0 & Hpar0 & Hv0 & Hsq0).
  destruct (Hres k Hk)
    as (par & v & sq & g & par' & v' & sq' & Hpar & Hv & Hsq & Hg & Hp' & _ & _
        & Hs1 & _ & _ & Hit).
  assert (par0 = par) as -> by congruence.
  assert (v = zeros (shape par)) as -> by congruence.
  assert (sq = zeros (shape par)) as -> by congruence.
  exists par, g, par'. repeat (split; [done|]).
  intros idx Hidx. destruct (Hit idx Hidx) as (Hv' & Hsq' & Hpar').
  rewrite Hpar', Hv', Hsq'. simpl.
  by rewrite !Hmul, !Hadd, Hlr, Hb1, Hb2, Heps.
Qed.
End adam_more.

(** ** Softmax and CrossEntropyLoss *)

Section softmax_loss.
Context {F : Type} `{Scalar F} `{Exponential F}.

Lemma softmax_ok (X : ndarray F) r k :
  shape X = [r; k] →
  ∃ out, Softmax.forward X = Some out
    ∧ shape out = [r; k]
    ∧ ∀ i j, i < r → j < k →
        item out [i; j]
        = sdiv (sexp (item X [i; j]))
               (ssum ((λ i', sexp (item X [i'; j])) <$> seq 0 r)).
Proof.
  intros HX. unfold Softmax.forward, np_sum_axis0, np_binop. simpl.
  rewrite HX. simpl. unfold bshape. simpl. rewrite Nat.eqb_refl. simpl.
  eexists. split; [done|]. simpl. split; [done|].
  intros i j Hi Hj. unfold bidx. simpl. by rewrite !bidx_axis by done.
Qed.

(** X14. On a two-dimensional input [Softmax.forward] returns, keeps the
    shape and divides the exponential of each entry by the sum of the
    exponentials of its column: the sums are taken along axis 0 and the row
    of sums is broadcast over the rows. *)
Theorem Softmax_forward_spec (X : ndarray F) r k :
  shape X = [r; k] →
  ∃ out, Softmax.forward X = Some out
    ∧ shape out = [r; k]
    ∧ ∀ i j, i < r → j < k →
        item out [i; j]
        = sdiv (sexp (item X [i; j]))
               (ssum ((λ i', sexp (item X [i'; j])) <$> seq 0 r)).
Proof.
  apply softmax_ok.
Qed.

Lemma loss_ok (y_pred y : ndarray F) c n :
  shape y_pred = [c; n] → shape y = [c; n] →
  ∃ loss deltaL, CrossEntropyLoss.get y_pred y = Some (loss, deltaL)
    ∧ shape deltaL = [c; n]
    ∧ (∀ idx, in_bounds [c; n] idx = true →
         item deltaL idx = ssub (item y_pred idx) (item y idx))
    ∧ loss = sdiv (sneg (ssum ((λ idx, smul (item y idx) (slog (item y_pred idx)))
                                <$> indices [c; n])))
                  (sof_nat n).
Proof.
  intros Hp Hy. unfold CrossEntropyLoss.get. rewrite Hp. simpl.
  destruct (np_binop_same ssub y_pred y) as (deltaL & -> & Hsh & Hitem);
    [congruence|].
  simpl.
  destruct (np_binop_same smul y (np_map slog y_pred)) as (prod & -> & Hpsh & Hpitem);
    [simpl; congruence|].
  simpl. eexists _, deltaL. split; [done|]. split; [congruence|]. split.
  - intros idx Hidx. apply Hitem. by rewrite Hp.
  - do 2 f_equal. unfold np_sum. rewrite Hpsh, Hy.
    apply (ssum_ext _ _ (indices [c; n])). intros idx Hidx.
    apply elem_of_indices in Hidx. rewrite Hpitem by (by rewrite Hy). done.
Qed.

(** X15. On predictions and labels of one shape [[c; n]],
    [CrossEntropyLoss.get] returns [deltaL = y_pred - y], entry by entry,
    and the loss [-(sum of y * log(y_pred)) / n], [n] being the second axis;
    on predictions with fewer than two axes it raises. *)
Theorem CrossEntropyLoss_get_spec (y_pred y : ndarray F) :
  (∀ c n, shape y_pred = [c; n] → shape y = [c; n] →
     ∃ loss deltaL, CrossEntropyLoss.get y_pred y = Some (loss, deltaL)
       ∧ shape deltaL = [c; n]
       ∧ (∀ idx, in_bounds [c; n] idx = true →
            item deltaL idx = ssub (item y_pred idx) (item y idx))
       ∧ loss = sdiv (sneg (ssum ((λ idx, smul (item y idx) (slog (item y_pred idx)))
                                   <$> indices [c; n])))
                     (sof_nat n))
  ∧ (length (shape y_pred) < 2 → CrossEntropyLoss.get y_pred y = None).
Proof.
  split.
  - intros c n. apply loss_ok.
  - intros Hlen. unfold CrossEntropyLoss.get.
    destruct (shape y_pred) as [|a [|b sh]]; simpl in *; try done. lia.
Qed.
End softmax_loss.

(** Over the real numbers. *)

Lemma foldl_Rplus_div (S acc : R) (l : list R) :
  foldl Rplus (acc / S)%R ((λ x, x / S)%R <$> l) = (foldl Rplus acc l / S)%R.
Proof.
  revert acc. induction l as [|x l IH]; intros acc; simpl; [done|].
  rewrite <- IH. f_equal. unfold Rdiv. lra.
Qed.

Lemma foldl_Rplus_minus {A} (a b : A → R) (acc1 acc2 : R) (l : list A) :
  foldl Rplus (acc1 - acc2)%R ((λ i, a i - b i)%R <$> l)
  = (foldl Rplus acc1 (a <$> l) - foldl Rplus acc2 (b <$> l))%R.
Proof.
  revert acc1 acc2. induction l as [|x l IH]; intros acc1 acc2; simpl; [done|].
  rewrite <- IH. f_equal. lra.
Qed.

Lemma foldl_Rplus_pos (acc : R) (l : list R) :
  (0 <= acc)%R → (∀ x, x ∈ l → (0 < x)%R) → l ≠ [] → (0 < foldl Rplus acc l)%R.
Proof.
  revert acc. induction l as [|x l IH]; intros acc Hacc Hl Hne; [done|].
  simpl. assert (0 < x)%R as Hx by (apply Hl; by left).
  destruct l as [|y l].
  - simpl. lra.
  - apply IH; [lra| |done]. intros z Hz. apply Hl. by right.
Qed.

Lemma softmax_column (X : ndarray R) r k :
  shape X = [r; k] → 1 ≤ r →
  ∃ out, Softmax.forward X = Some out
    ∧ shape out = [r; k]
    ∧ ∀ j, j < k →
        ssum ((λ i, item out [i; j]) <$> seq 0 r) = 1%R
        ∧ ∀ i, i < r → (0 < item out [i; j])%R.
Proof.
  intros HX Hr. destruct (softmax_ok X r k HX) as (out & Hfwd & Hsh & Hitem).
  exists out. split; [done|]. split; [done|]. intros j Hj.
  set (S := ssum ((λ i', sexp (item X [i'; j])) <$> seq 0 r)).
  assert (0 < S)%R as HS.
  { unfold S, ssum. simpl. apply foldl_Rplus_pos; [lra| |].
    - intros x Hx. apply list_elem_of_fmap in Hx as (i & -> & _). apply exp_pos.
    - destruct r; [lia|done]. }
  split.
  - rewrite (ssum_ext _ (λ i, (sexp (item X [i; j]) / S)%R) (seq 0 r)).
    2:{ intros i Hi. apply elem_of_seq in Hi. rewrite Hitem by lia. done. }
    unfold ssum. simpl.
    rewrite (list_fmap_compose (λ i, exp (item X [i; j])) (λ x, (x / S)%R)).
    replace 0%R with (0 / S)%R at 1 by (unfold Rdiv; lra).
    rewrite foldl_Rplus_div. fold (ssum (F := R) ((λ i, exp (item X [i; j])) <$> seq 0 r)).
    change (ssum _) with S. unfold Rdiv. apply Rinv_r. lra.
  - intros i Hi. rewrite Hitem by done. fold S. simpl.
    apply Rdiv_lt_0_compat; [apply exp_pos|done].
Qed.

(** X16. Over the real numbers, for an input with at least one row, every
    entry of the result of [Softmax.forward] is positive and the entries of
    every column add up to 1. *)
Theorem Softmax_columns_sum_to_one (X : ndarray R) r k :
  shape X = [r; k] → 1 ≤ r →
  ∃ out, Softmax.forward X = Some out
    ∧ shape out = [r; k]
    ∧ ∀ j, j < k →
        ssum ((λ i, item out [i; j]) <$> seq 0 r) = 1%R
        ∧ ∀ i, i < r → (0 < item out [i; j])%R.
Proof. apply softmax_column. Qed.

(** X17. Over the real numbers, [CrossEntropyLoss.get] on the result of
    [Softmax.forward] returns a [deltaL] each of whose columns adds up to 1
    minus the sum of the labels of the column: to 0 when the labels of the
    column add up to 1. *)
Theorem Softmax_then_loss (X y : ndarray R) r k :
  shape X = [r; k] → shape y = [r; k] → 1 ≤ r →
  ∃ probs loss deltaL,
    Softmax.forward X = Some probs
    ∧ CrossEntropyLoss.get probs y = Some (loss, deltaL)
    ∧ shape deltaL = [r; k]
    ∧ ∀ j, j < k →
        ssum ((λ i, item deltaL [i; j]) <$> seq 0 r)
        = (1 - ssum ((λ i, item y [i; j]) <$> seq 0 r))%R.
Proof.
  intros HX Hy Hr.
  destruct (softmax_column X r k HX Hr) as (probs & Hfwd & Hsh & Hcol).
  destruct (loss_ok probs y r k Hsh Hy) as (loss & deltaL & Hget & Hdsh & Hditem & _).
  exists probs, loss, deltaL. repeat (split; [done|]).
  intros j Hj. destruct (Hcol j Hj) as [Hone _].
  rewrite (ssum_ext _ (λ i, (item probs [i; j] - item y [i; j])%R) (seq 0 r)).
  2:{ intros i Hi. apply elem_of_seq in Hi.
      rewrite Hditem by (apply in_bounds2; lia). done. }
  rewrite <- Hone. unfold ssum. simpl.
  replace 0%R with (0 - 0)%R at 1 by lra.
  apply (foldl_Rplus_minus (λ i, item probs [i; j]) (λ i, item y [i; j])).
Qed.

(** ** What the gradients are made of, and what the forward passes refuse *)

Section more_conv_pool.
Context {F : Type} `{Scalar F}.

(** X4. The input gradient [Conv.backward] returns is, cell by cell, the sum
    over the windows that contain the cell of [dout[i, c, h, w]] times the
    weight at the cell's place in the window, taken from filter
    [n_F - 1 - c] and channel [C - 1 - ch]: the weights with the filter
    axis and the channel axis reversed. *)
Theorem Conv_backward_input_gradient (L : Conv.t F) X dout mX C H0 Wd m nH nW :
  Conv.cache L = Some X →
  shape X = [mX; C; H0; Wd] →
  shape dout = [m; Conv.n_F L; nH; nW] →
  shape (val (Conv.W L)) = [Conv.n_F L; C; Conv.f L; Conv.f L] →
  shape (grad (Conv.W L)) = [Conv.n_F L; C; Conv.f L; Conv.f L] →
  shape (grad (Conv.b L)) = [Conv.n_F L; 1] →
  m ≤ mX →
  (∀ h, h < nH → h * Conv.s L + Conv.f L ≤ H0) →
  (∀ w, w < nW → w * Conv.s L + Conv.f L ≤ Wd) →
  ∃ L' dX Wg bg, Conv.backward L dout = Some (L', (dX, Wg, bg))
    ∧ shape dX = shape X
    ∧ ∀ i ch y x, ch < C →
         item dX [i; ch; y; x]
         = foldl sadd szero
             (omap (dX_share (Conv.f L) (Conv.s L)
                      (flip_filters_channels (val (Conv.W L)) (Conv.n_F L) C)
                      dout i ch y x)
                   (indices [m; Conv.n_F L; nH; nW])).
Proof.
  intros Hcache HX Hdout HWv HWg Hbg Hm HfH HfW.
  destruct (backward_ok L X dout mX C H0 Wd m nH nW)
    as (dX & Wg & bg & Hback & HdX & _ & _ & _ & _ & HdXitem); try done.
  by exists (Conv.set_grads L Wg bg), dX, Wg, bg.
Qed.

(** X5. With a stride of at least 1 and a filter that fits,
    [AvgPool.forward] caches the input and returns an array of shape
    [[m; C; (H - f)/s + 1; (W - f)/s + 1]] whose cell [(i, c, h, w)] is the
    sum of the window over all channels divided by [C * f * f]: the cells of
    one position hold one number in every channel. *)
Theorem AvgPool_forward_channel_blind (L : AvgPool.t F) X m C H0 Wd :
  shape X = [m; C; H0; Wd] →
  1 ≤ AvgPool.s L → AvgPool.f L ≤ H0 → AvgPool.f L ≤ Wd →
  ∃ L' out, AvgPool.forward L X = Some (L', out)
    ∧ AvgPool.cache L' = Some X
    ∧ shape out = [m; C; (H0 - AvgPool.f L) / AvgPool.s L + 1;
                   (Wd - AvgPool.f L) / AvgPool.s L + 1]
    ∧ (∀ i c h w, i < m → c < C →
         h < (H0 - AvgPool.f L) / AvgPool.s L + 1 →
         w < (Wd - AvgPool.f L) / AvgPool.s L + 1 →
         item out [i; c; h; w]
         = sdiv (window_sum X i (h * AvgPool.s L) (w * AvgPool.s L) C (AvgPool.f L))
                (sof_nat (C * (AvgPool.f L * AvgPool.f L))))
    ∧ (∀ i c c' h w, i < m → c < C → c' < C →
         h < (H0 - AvgPool.f L) / AvgPool.s L + 1 →
         w < (Wd - AvgPool.f L) / AvgPool.s L + 1 →
         item out [i; c; h; w] = item out [i; c'; h; w]).
Proof.
  intros HX Hs HfH HfW.
  destruct (AvgPool_forward_all_channels L X m C H0 Wd HX Hs HfH HfW)
    as (L' & out & Hfwd & Hcache & Hsh & Hitem).
  exists L', out. repeat (split; [done|]).
  intros i c c' h w Hi Hc Hc' Hh Hw. by rewrite !Hitem.
Qed.

(** X18. [Conv.forward] and [AvgPool.forward] raise on a stride of 0, where
    the output size divides by the stride, and on an input that does not
    have four axes. *)
Theorem forward_rejects (Lc : Conv.t F) (Lp : AvgPool.t F) (X : ndarray F) :
  (Conv.s Lc = 0 ∨ length (shape X) ≠ 4 → Conv.forward Lc X = None)
  ∧ (AvgPool.s Lp = 0 ∨ length (shape X) ≠ 4 → AvgPool.forward Lp X = None).
Proof.
  split.
  - intros Hbad. unfold Conv.forward.
    destruct (shape X) as [|a [|b [|c [|d [|e sh]]]]]; simpl; try done.
    destruct Hbad as [Hs|Hlen]; [|done].
    unfold out_size. simpl. by rewrite Hs.
  - intros Hbad. unfold AvgPool.forward.
    destruct (shape X) as [|a [|b [|c [|d [|e sh]]]]]; simpl; try done.
    destruct Hbad as [Hs|Hlen]; [|done].
    unfold out_size. by rewrite Hs.
Qed.
End more_conv_pool.

(** ** The further properties at concrete inputs *)

Lemma Conv_lifetime_invariant_witness :
  ∃ L, conv_reach conv_2x2 L
    ∧ Conv.cache L = Some X33
    ∧ val (Conv.W L) = K22
    ∧ shape (grad (Conv.W L)) = [1; 1; 2; 2].
Proof.
  assert (∃ L out r, Conv.forward conv_2x2 X33 = Some (Conv.set_cache conv_2x2 X33, out)
            ∧ Conv.backward (Conv.set_cache conv_2x2 X33) D11 = Some (L, r)
            ∧ Conv.cache L = Some X33) as (L & out & r & Hfwd & Hback & Hcache).
  { eexists _, _, _. split; [vm_compute; reflexivity|].
    split; [vm_compute; reflexivity|reflexivity]. }
  assert (conv_reach conv_2x2 L) as Hreach.
  { eapply reach_backward; [|exact Hback].
    eapply reach_forward; [apply reach_start|exact Hfwd]. }
  exists L. split; [exact Hreach|]. split; [exact Hcache|].
  destruct (Conv_lifetime_invariant 1 2 1 1 0 K22 B1 L)
    as (_ & _ & _ & _ & _ & HvW & _ & HgW & _);
    [reflexivity | reflexivity | exact Hreach |].
  split; [exact HvW|exact HgW].
Defined.

Lemma Conv_forward_then_backward_witness :
  ∃ L' out L'' dX Wg bg,
    Conv.forward conv_2x2 X33 = Some (L', out)
    ∧ Conv.backward L' Z22 = Some (L'', (dX, Wg, bg))
    ∧ shape dX = [1; 1; 3; 3].
Proof.
  assert (∃ out, Conv.forward conv_2x2 X33 = Some (Conv.set_cache conv_2x2 X33, out)
                 ∧ shape out = [1; 1; 2; 2]) as (out & Hfwd & Hsh).
  { eexists. split; [vm_compute; reflexivity|reflexivity]. }
  destruct (Conv_forward_then_backward conv_2x2 (Conv.set_cache conv_2x2 X33) X33 out Z22 1 1 3 3)
    as (L'' & dX & Wg & bg & Hback & HdX & _);
    [reflexivity | reflexivity | reflexivity | reflexivity | reflexivity
    | simpl; lia | simpl; lia | simpl; lia | exact Hfwd | by rewrite Hsh |].
  exists (Conv.set_cache conv_2x2 X33), out, L'', dX, Wg, bg.
  split; [exact Hfwd|]. split; [exact Hback|exact HdX].
Defined.

Lemma Conv_backward_keeps_forward_witness :
  ∃ L' r, Conv.backward (Conv.set_cache conv_2x2 X22) D11 = Some (L', r)
    ∧ val (Conv.W L') = K22
    ∧ snd <$> Conv.forward L' X33 = snd <$> Conv.forward (Conv.set_cache conv_2x2 X22) X33.
Proof.
  assert (∃ L' r, Conv.backward (Conv.set_cache conv_2x2 X22) D11 = Some (L', r))
    as (L' & r & Hback).
  { eexists _, _. vm_compute. reflexivity. }
  destruct (Conv_backward_keeps_forward _ _ _ _ Hback)
    as (_ & _ & _ & _ & _ & HvW & _ & _ & Hfwd).
  exists L', r. split; [exact Hback|]. split; [exact HvW|apply Hfwd].
Defined.

Lemma Conv_backward_input_gradient_witness :
  ∃ L' dX Wg bg, Conv.backward (Conv.set_cache conv_2x2 X22) D11 = Some (L', (dX, Wg, bg))
    ∧ shape dX = [1; 1; 2; 2].
Proof.
  destruct (Conv_backward_input_gradient (Conv.set_cache conv_2x2 X22) X22 D11
              1 1 2 2 1 1 1)
    as (L' & dX & Wg & bg & Hback & HdX & _);
    [reflexivity | reflexivity | reflexivity | reflexivity | reflexivity | reflexivity
    | lia | intros h Hh; simpl; lia | intros w Hw; simpl; lia |].
  exists L', dX, Wg, bg. split; [exact Hback|exact HdX].
Defined.

Lemma AvgPool_forward_channel_blind_witness :
  ∃ L' out, AvgPool.forward pool_2x2 X33 = Some (L', out)
    ∧ shape out = [1; 1; 2; 2].
Proof.
  destruct (AvgPool_forward_channel_blind pool_2x2 X33 1 1 3 3)
    as (L' & out & Hfwd & _ & Hsh & _);
    [reflexivity | simpl; lia | simpl; lia | simpl; lia |].
  exists L', out. split; [exact Hfwd|exact Hsh].
Defined.


Lemma AvgPool_forward_then_backward_witness :
  ∃ L' out dX, AvgPool.forward pool_2x2 X33 = Some (L', out)
    ∧ AvgPool.backward L' Z22 = Some dX ∧ shape dX = [1; 1; 3; 3].
Proof.
  assert (∃ L' out, AvgPool.forward pool_2x2 X33 = Some (L', out)
                    ∧ shape out = [1; 1; 2; 2]) as (L' & out & Hfwd & Hsh).
  { eexists _, _. split; [vm_compute; reflexivity|reflexivity]. }
  destruct (AvgPool_forward_then_backward pool_2x2 L' X33 out Z22 1 1 3 3)
    as (dX & Hback & HdX & _);
    [reflexivity | simpl; lia | simpl; lia | simpl; lia | exact Hfwd
    | by rewrite Hsh |].
  exists L', out, dX. split; [exact Hfwd|]. split; [exact Hback|exact HdX].
Defined.

Lemma Fc_forward_spec_witness :
  ∃ L' A, Fc.forward fc_2x3 x34 = Some (L', A)
    ∧ Fc.cache L' = Some x34 ∧ shape A = [2; 4].
Proof.
  destruct (Fc_forward_spec fc_2x3 x34 2 3 3 4) as [Hret _];
    [reflexivity | reflexivity | reflexivity |].
  destruct (Hret eq_refl) as (L' & A & Hfwd & Hcache & _ & _ & HA & _).
  exists L', A. split; [exact Hfwd|]. split; [exact Hcache|exact HA].
Defined.

Lemma Fc_forward_then_backward_witness :
  ∃ L' A L'' new_deltaL Wg bg,
    Fc.forward fc_2x3 x34 = Some (L', A)
    ∧ Fc.backward L' delta24 = Some (L'', (new_deltaL, Wg, bg))
    ∧ shape Wg = [2; 3] ∧ shape bg = [4].
Proof.
  destruct (fc_forward_ok fc_2x3 x34 2 3 4) as (L' & A & Hfwd & _ & _ & _ & HA & _);
    [reflexivity | reflexivity | reflexivity |].
  destruct (Fc_forward_then_backward fc_2x3 L' x34 A delta24 2 3 4) as [_ Hret];
    [reflexivity | reflexivity | reflexivity | exact Hfwd | by rewrite HA |].
  destruct Hret as (L'' & nd & Wg & bg & Hback & HWg & _ & Hbg & _); [lia|].
  exists L', A, L'', nd, Wg, bg. split; [exact Hfwd|]. split; [exact Hback|].
  split; [exact HWg|exact Hbg].
Defined.

Lemma AdamGD_init_spec_witness :
  ∃ self, AdamGD.init 1%R 0%R 0%R 1%R 7 adam_store = Some self
    ∧ AdamGD.params self = 7.
Proof.
  destruct (AdamGD_init_spec 1%R 0%R 0%R 1%R 7 adam_store adam_params) as [Hret _];
    [reflexivity|].
  destruct Hret as (self & Hinit & _ & _ & _ & _ & Hp & _).
  - intros k Hk. unfold tracked in Hk.
    repeat (apply elem_of_cons in Hk as [->|Hk];
            [exists (r1 1%R); vm_compute; reflexivity|]).
    apply elem_of_nil in Hk. destruct Hk.
  - exists self. split; [exact Hinit|exact Hp].
Defined.

Lemma AdamGD_update_missing_gradient_witness :
  AdamGD.update_params adam adam_store ∅ = None.
Proof.
  apply (AdamGD_update_missing_gradient adam adam_store ∅ "W1").
  - unfold tracked. apply elem_of_cons. left. reflexivity.
  - reflexivity.
Defined.

Lemma AdamGD_steps_go_on_witness :
  ∃ self, AdamGD.init 1%R 0%R 0%R 1%R 7 adam_store = Some self
    ∧ adam_ready self adam_store.
Proof.
  assert (∃ self, AdamGD.init 1%R 0%R 0%R 1%R 7 adam_store = Some self)
    as (self & Hinit).
  { eexists. vm_compute. reflexivity. }
  exists self. split; [exact Hinit|].
  exact (proj1 (proj1 AdamGD_steps_go_on _ _ _ _ _ _ _ Hinit)).
Defined.

Lemma AdamGD_first_step_witness :
  ∃ self self' h', AdamGD.init 1%R 0%R 0%R 1%R 7 adam_store = Some self
    ∧ AdamGD.update_params self adam_store adam_grads = Some (self', h', 7).
Proof.
  assert (∃ self, AdamGD.init 1%R 0%R 0%R 1%R 7 adam_store = Some self)
    as (self & Hinit).
  { eexists. vm_compute. reflexivity. }
  destruct (AdamGD_first_step 1%R 0%R 0%R 1%R 7 adam_store adam_grads self)
    as (self' & h' & d & d' & Hupd & _).
  - intros x. apply Rmult_0_r.
  - intros y. apply Rplus_0_l.
  - exact Hinit.
  - exists adam_params. split; [reflexivity|]. intros k Hk. unfold tracked in Hk.
    repeat (apply elem_of_cons in Hk as [->|Hk];
            [exists (r1 1%R), (r1 2%R); repeat split; vm_compute; reflexivity|]).
    apply elem_of_nil in Hk. destruct Hk.
  - exists self, self', h'. split; [exact Hinit|exact Hupd].
Defined.

Lemma Softmax_forward_spec_witness :
  ∃ out, Softmax.forward scores22 = Some out ∧ shape out = [2; 2].
Proof.
  destruct (Softmax_forward_spec scores22 2 2) as (out & Hfwd & Hsh & _);
    [reflexivity|].
  exists out. split; [exact Hfwd|exact Hsh].
Defined.

Lemma CrossEntropyLoss_get_spec_witness :
  ∃ loss deltaL, CrossEntropyLoss.get labels22 labels22 = Some (loss, deltaL)
    ∧ shape deltaL = [2; 2].
Proof.
  destruct (proj1 (CrossEntropyLoss_get_spec labels22 labels22) 2 2)
    as (loss & deltaL & Hget & Hsh & _); [reflexivity | reflexivity |].
  exists loss, deltaL. split; [exact Hget|exact Hsh].
Defined.

Lemma Softmax_columns_sum_to_one_witness :
  ∃ out, Softmax.forward scores22 = Some out
    ∧ ssum ((λ i, item out [i; 0]) <$> seq 0 2) = 1%R.
Proof.
  destruct (Softmax_columns_sum_to_one scores22 2 2) as (out & Hfwd & _ & Hcol);
    [reflexivity | lia |].
  exists out. split; [exact Hfwd|]. apply (Hcol 0). lia.
Defined.

Lemma Softmax_then_loss_witness :
  ∃ probs loss deltaL,
    Softmax.forward scores22 = Some probs
    ∧ CrossEntropyLoss.get probs labels22 = Some (loss, deltaL)
    ∧ shape deltaL = [2; 2].
Proof.
  destruct (Softmax_then_loss scores22 labels22 2 2)
    as (probs & loss & deltaL & Hfwd & Hget & Hsh & _);
    [reflexivity | reflexivity | lia |].
  exists probs, loss, deltaL. split; [exact Hfwd|]. split; [exact Hget|exact Hsh].
Defined.

Lemma forward_rejects_witness :
  Conv.forward (Conv.init 1 2 1 0 0 K22 B1) X33 = None
  ∧ AvgPool.forward (AvgPool.init 2 0) X33 = None.
Proof.
  destruct (forward_rejects (Conv.init 1 2 1 0 0 K22 B1) (AvgPool.init 2 0) X33)
    as [Hc Hp].
  split; [apply Hc|apply Hp]; left; reflexivity.
Defined.
